(** * The [classify] command of the ad classifier, embedded in Rocq

    Source: backend/classifier/classifier/commands/classify.py

    The command selects ads from the [ads] table, scores each one with the
    classifier registered for its language and writes the probabilities back
    in batches of 100.  The embedding keeps the query texts as strings, the
    classifier registry as a finite map keyed by language code, and threads
    the table, the console and the log of bulk writes through a small
    state-and-exception monad. *)

From Stdlib Require Import Ascii String NArith QArith.
From stdpp Require Import base option list strings pretty gmap.

Local Open Scope string_scope.
Local Open Scope list_scope.

(** ** Data model *)

(** A row of the [ads] table, with the four columns the command touches. *)
Record Ad := mkAd {
  ad_id : string;
  ad_lang : string;
  ad_html : string;
  political_probability : Q
}.

(** The parameter dictionary [{"id": .., "probability": ..}] of one update. *)
Record Update := mkUpdate {
  upd_id : string;
  probability : Q
}.

(** What [DB.query] yields: rows of [select * from ads], or the single row
    of the counting query with its column [length]. *)
Inductive Row :=
| AdRow (a : Ad)
| CountRow (n : nat).

(** Lines written by [print]. *)
Inductive Line :=
| RunningNewest
| RunningEvery
| Found (len : nat)
| Classified (i : string) (idx len : nat) (p : Q).

(** Exceptions that end a run. *)
Inductive Exn :=
| SQLError
| LoadError
| KeyError
| IndexError
| WriteError.

(** ** The storage collaborator *)

Module SQL.

(** Modelled from the spec: the storage collaborator [DB] of
    [classifier.utilities] is not part of the sources.  The spec describes it
    as a service answering "records matching predicate" and "count of records
    matching predicate" for sql-like texts, and committing a bulk update all
    or none.  The fragment below is the part of SQL the command's texts live
    in: lower-case keywords, string literals in single quotes where a doubled
    quote stands for one quote character, unsigned integer literals, and a
    [where] clause that is a disjunction of conjunctions of equalities.
    Every other text is rejected. *)

Inductive token :=
| TWord (w : string)
| TStr (s : string)
| TSym (c : ascii).

Inductive lex_state :=
| Idle
| InWord (w : string)
| InStr (s : string)
| InStrQuote (s : string).

Definition quote : ascii := "'"%char.

Definition is_quote (c : ascii) : bool := Ascii.eqb c quote.
Definition is_space (c : ascii) : bool := Ascii.eqb c " "%char.
Definition is_sym (c : ascii) : bool :=
  Ascii.eqb c "*"%char || Ascii.eqb c "("%char || Ascii.eqb c ")"%char
  || Ascii.eqb c "="%char || Ascii.eqb c ";"%char.

Definition snoc (s : string) (c : ascii) : string := s +:+ String c "".

Definition from_idle (c : ascii) : lex_state * list token :=
  if is_quote c then (InStr "", [])
  else if is_space c then (Idle, [])
  else if is_sym c then (Idle, [TSym c])
  else (InWord (String c ""), []).

Definition lex_step (st : lex_state) (c : ascii) : lex_state * list token :=
  match st with
  | Idle => from_idle c
  | InWord w =>
      if is_quote c || is_space c || is_sym c
      then (fst (from_idle c), TWord w :: snd (from_idle c))
      else (InWord (snoc w c), [])
  | InStr s =>
      if is_quote c then (InStrQuote s, []) else (InStr (snoc s c), [])
  | InStrQuote s =>
      if is_quote c then (InStr (snoc s quote), [])
      else (fst (from_idle c), TStr s :: snd (from_idle c))
  end.

Fixpoint lex_run (st : lex_state) (s : string) : lex_state * list token :=
  match s with
  | EmptyString => (st, [])
  | String c s' =>
      let '(st1, ts1) := lex_step st c in
      let '(st2, ts2) := lex_run st1 s' in
      (st2, ts1 ++ ts2)
  end.

Definition lex_finish (st : lex_state) : option (list token) :=
  match st with
  | Idle => Some []
  | InWord w => Some [TWord w]
  | InStr _ => None
  | InStrQuote s => Some [TStr s]
  end.

Definition tokenize (s : string) : option (list token) :=
  let '(st, ts) := lex_run Idle s in
  match lex_finish st with
  | Some tl => Some (ts ++ tl)
  | None => None
  end.

(** *** Expressions *)

Inductive column := CId | CLang | CHtml | CProb.

Inductive operand :=
| OCol (c : column)
| OText (s : string)
| ONum (n : N).

Inductive atom :=
| EqText (a b : operand)
| EqNum (a b : operand).

(** A [where] clause: a disjunction of conjunctions. *)
Definition where_clause := list (list atom).

Inductive stmt :=
| SelectAds (w : where_clause)
| CountAds (w : where_clause).

Definition digit_of (c : ascii) : option N :=
  let n := N_of_ascii c in
  if ((48 <=? n) && (n <=? 57))%N then Some (n - 48)%N else None.

Fixpoint number_of (acc : N) (s : string) : option N :=
  match s with
  | EmptyString => Some acc
  | String c s' =>
      match digit_of c with
      | Some d => number_of (10 * acc + d)%N s'
      | None => None
      end
  end.

Definition is_text (o : operand) : bool :=
  match o with
  | OCol CProb | ONum _ => false
  | _ => true
  end.

Definition parse_operand (t : token) : option operand :=
  match t with
  | TStr s => Some (OText s)
  | TWord w =>
      if String.eqb w "id" then Some (OCol CId)
      else if String.eqb w "lang" then Some (OCol CLang)
      else if String.eqb w "html" then Some (OCol CHtml)
      else if String.eqb w "political_probability" then Some (OCol CProb)
      else match w with
           | EmptyString => None
           | _ => ONum <$> number_of 0 w
           end
  | TSym _ => None
  end.

Definition parse_atom (ts : list token) : option atom :=
  match ts with
  | [a; TSym c; b] =>
      if Ascii.eqb c "="%char then
        match parse_operand a, parse_operand b with
        | Some x, Some y =>
            if is_text x && is_text y then Some (EqText x y)
            else if negb (is_text x) && negb (is_text y) then Some (EqNum x y)
            else None
        | _, _ => None
        end
      else None
  | _ => None
  end.

Definition is_kw (kw : string) (t : token) : bool :=
  match t with
  | TWord w => String.eqb w kw
  | _ => false
  end.

Fixpoint split_on (kw : string) (ts : list token) : list (list token) :=
  match ts with
  | [] => [[]]
  | t :: ts' =>
      if is_kw kw t then [] :: split_on kw ts'
      else match split_on kw ts' with
           | g :: gs => (t :: g) :: gs
           | [] => [[t]]
           end
  end.

Definition parse_conj (ts : list token) : option (list atom) :=
  mapM parse_atom (split_on "and" ts).

Definition parse_where (ts : list token) : option where_clause :=
  mapM parse_conj (split_on "or" ts).

Definition parse_select (ts : list token) : option where_clause :=
  match ts with
  | TWord s :: TSym c :: TWord f :: TWord a :: rest =>
      if String.eqb s "select" && Ascii.eqb c "*"%char
         && String.eqb f "from" && String.eqb a "ads"
      then match rest with
           | [] => Some [[]]
           | w :: conds => if is_kw "where" w then parse_where conds else None
           end
      else None
  | _ => None
  end.

Definition token_eqb (t u : token) : bool :=
  match t, u with
  | TWord a, TWord b => String.eqb a b
  | TStr a, TStr b => String.eqb a b
  | TSym a, TSym b => Ascii.eqb a b
  | _, _ => false
  end.

Fixpoint strip_prefix (p ts : list token) : option (list token) :=
  match p, ts with
  | [], _ => Some ts
  | x :: p', t :: ts' => if token_eqb x t then strip_prefix p' ts' else None
  | _ :: _, [] => None
  end.

Definition strip_suffix (p ts : list token) : option (list token) :=
  match strip_prefix (rev p) (rev ts) with
  | Some r => Some (rev r)
  | None => None
  end.

(** The tokens that open and close the counting statement around its
    inner select. *)
Definition count_open : list token :=
  [TWord "select"; TWord "count"; TSym "("%char; TSym "*"%char; TSym ")"%char;
   TWord "as"; TWord "length"; TWord "from"; TSym "("%char].
Definition count_close : list token :=
  [TSym ")"%char; TWord "as"; TWord "t1"; TSym ";"%char].

Definition parse_stmt (ts : list token) : option stmt :=
  match strip_prefix count_open ts with
  | Some rest =>
      match strip_suffix count_close rest with
      | Some inner => CountAds <$> parse_select inner
      | None => None
      end
  | None => SelectAds <$> parse_select ts
  end.

(** *** Evaluation *)

Definition text_of (o : operand) (r : Ad) : string :=
  match o with
  | OCol CId => ad_id r
  | OCol CLang => ad_lang r
  | OCol CHtml => ad_html r
  | OText s => s
  | _ => ""
  end.

Definition num_of (o : operand) (r : Ad) : Q :=
  match o with
  | OCol CProb => political_probability r
  | ONum n => inject_Z (Z.of_N n)
  | _ => 0%Q
  end.

Definition eval_atom (r : Ad) (a : atom) : bool :=
  match a with
  | EqText x y => String.eqb (text_of x r) (text_of y r)
  | EqNum x y => Qeq_bool (num_of x r) (num_of y r)
  end.

Definition eval_where (w : where_clause) (r : Ad) : bool :=
  existsb (forallb (eval_atom r)) w.

Definition exec (s : stmt) (t : list Ad) : list Row :=
  match s with
  | SelectAds w => AdRow <$> List.filter (eval_where w) t
  | CountAds w => [CountRow (length (List.filter (eval_where w) t))]
  end.

(** [DB.query(text)] against the table [t]; [None] is a rejected text. *)
Definition query (text : string) (t : list Ad) : option (list Row) :=
  match tokenize text with
  | Some ts =>
      match parse_stmt ts with
      | Some s => Some (exec s t)
      | None => None
      end
  | None => None
  end.

(** The one update statement of the fragment, with its two bound
    parameters. *)
Definition update_tokens : list token :=
  [TWord "update"; TWord "ads"; TWord "set"; TWord "political_probability";
   TSym "="%char; TWord ":probability"; TWord "where"; TWord "id";
   TSym "="%char; TWord ":id"].

Definition is_update (text : string) : bool :=
  match tokenize text with
  | Some ts => bool_decide (length ts = length update_tokens)
               && forallb (fun p => token_eqb (fst p) (snd p)) (combine ts update_tokens)
  | None => false
  end.

Definition set_probability (u : Update) (r : Ad) : Ad :=
  if String.eqb (ad_id r) (upd_id u)
  then mkAd (ad_id r) (ad_lang r) (ad_html r) (probability u)
  else r.

(** One execution of the statement per parameter dictionary, in order. *)
Definition apply_updates (us : list Update) (t : list Ad) : list Ad :=
  fold_left (fun t u => set_probability u <$> t) us t.

End SQL.

(** ** Classifier bundles and the run's environment *)

(** A feature matrix and a matrix of class probabilities, one row per
    document. *)
Definition matrix := list (list Q).

(** The two objects stored per language: the unpickled model with its
    [predict_proba], and the vectorizer with its [transform]. *)
Record Bundle := mkBundle {
  predict_proba : matrix -> matrix;
  transform : list string -> matrix
}.

Record Conf := mkConf {
  language : string;
  params : string
}.

(** The collaborators of [classifier.utilities] other than [DB], and the
    faults of the storage: [confs] lists the configured (directory, conf)
    pairs, [load_classifier] opens and unpickles the artifact of a directory,
    [get_vectorizer] rebuilds the vectorizer of a conf, [get_text] extracts
    the text of a markup, and [bulk_fails k] tells whether the bulk write
    issued after [k] earlier ones is refused. *)
Record Env := mkEnv {
  confs : list (string * Conf);
  load_classifier : string -> option (matrix -> matrix);
  get_vectorizer : Conf -> option (list string -> matrix);
  get_text : string -> string;
  bulk_fails : nat -> bool
}.

(** The state a run acts on: the table, the console, and the bulk writes
    issued so far, each with the flag of its commit. *)
Record World := mkWorld {
  table : list Ad;
  stdout : list Line;
  bulk_log : list (list Update * bool)
}.

(** ** The monad of a run: state, and an exception that ends it *)

Definition M (A : Type) : Type := World -> World * (Exn + A).

Definition raise {A} (e : Exn) : M A := fun w => (w, inl e).

#[global] Instance M_ret : MRet M := fun A a w => (w, inr a).
#[global] Instance M_bind : MBind M := fun A B k m w =>
  match m w with
  | (w1, inr a) => k a w1
  | (w1, inl e) => (w1, inl e)
  end.

Definition print (l : Line) : M unit :=
  fun w => (mkWorld (table w) (stdout w ++ [l]) (bulk_log w), inr tt).

(** Modelled from the spec: [DB.query(text)] of the storage collaborator,
    which is not part of the sources.  The statement is run when the call is
    made, against the table as it is then; a rejected text raises. *)
Definition DB_query (text : string) : M (list Row) :=
  fun w => match SQL.query text (table w) with
           | Some rows => (w, inr rows)
           | None => (w, inl SQLError)
           end.

(** Modelled from the spec: [DB.bulk_query(text, updates)] of the storage
    collaborator, "commits all or none per call".  A refused call leaves the
    table as it was and raises; every call is logged with its outcome. *)
Definition DB_bulk_query (e : Env) (text : string) (us : list Update) : M unit :=
  fun w =>
    if negb (SQL.is_update text) then (w, inl SQLError)
    else if bulk_fails e (length (bulk_log w))
    then (mkWorld (table w) (stdout w) (bulk_log w ++ [(us, false)]), inl WriteError)
    else (mkWorld (SQL.apply_updates us (table w)) (stdout w)
                  (bulk_log w ++ [(us, true)]), inr tt).

(** Subscripts of rows and of the probability matrix. *)
Definition row_length (r : Row) : M nat :=
  match r with
  | CountRow n => mret n
  | AdRow _ => raise KeyError
  end.

Definition row_ad (r : Row) : M Ad :=
  match r with
  | AdRow a => mret a
  | CountRow _ => raise KeyError
  end.

Definition first_row (rows : list Row) : M Row :=
  match rows with
  | r :: _ => mret r
  | [] => raise IndexError
  end.

(** [m[0][1]] *)
Definition political (m : matrix) : option Q :=
  match m with
  | row0 :: _ => nth_error row0 1
  | [] => None
  end.

(** ** The command *)

(** The truth value Python gives the option [--lang]: neither [None] nor
    the empty string. *)
Definition truthy (lang : option string) : option string :=
  match lang with
  | Some EmptyString => None
  | Some l => Some l
  | None => None
  end.

Definition build_query (newest : bool) (lang : option string) : string :=
  if newest then
    let query := "select * from ads where political_probability = 0" in
    match truthy lang with
    | Some l => query +:+ " and lang = '" +:+ l +:+ "'"
    | None => query
    end
  else
    let query := "select * from ads" in
    match truthy lang with
    | Some l => query +:+ " where lang = '" +:+ l +:+ "'"
    | None => query
    end.

Definition count_head : string := "select count(" +:+ "*" +:+ ") as length from (".
Definition count_tail : string := ") as t1;".

Definition count_query (query : string) : string :=
  count_head +:+ query +:+ count_tail.

Definition update_query : string :=
  "update ads set political_probability=:probability where id=:id".

Definition batch_size : nat := 100.

(** Lines 31 to 37, the registry: one bundle per configured language, a
    later conf of the same language replacing an earlier one.  Opening or
    unpickling an artifact, or rebuilding a vectorizer, can raise. *)
Fixpoint load_classifiers (e : Env) (cs : list (string * Conf))
    (classifiers : gmap string Bundle) : Exn + gmap string Bundle :=
  match cs with
  | [] => inr classifiers
  | (directory, conf) :: rest =>
      match load_classifier e directory, get_vectorizer e conf with
      | Some c, Some v =>
          load_classifiers e rest (<[language conf := mkBundle c v]> classifiers)
      | _, _ => inl LoadError
      end
  end.

Definition lift {A} (r : Exn + A) : M A := fun w => (w, r).

(** The loop's variables. *)
Record Loop := mkLoop {
  idx : nat;
  updates : list Update
}.

(** Lines 46 to 55: score one ad with its bundle, append the update and
    print the progress line. *)
Definition score (e : Env) (len : nat) (classifier : Bundle) (record : Ad)
    (idx : nat) (updates : list Update) : M Loop :=
  let text := transform classifier [get_text e (ad_html record)] in
  match political (predict_proba classifier text) with
  | None => raise IndexError
  | Some p =>
      let update := mkUpdate (ad_id record) p in
      print (Classified (upd_id update) idx len (probability update));;
      mret (mkLoop idx (updates ++ [update]))
  end.

(** Lines 57 to 59. *)
Definition flush_full (e : Env) (st : Loop) : M Loop :=
  if bool_decide (batch_size <= length (updates st)) then
    DB_bulk_query e update_query (updates st);;
    mret (mkLoop (idx st) [])
  else mret st.

(** The body of the loop, lines 44 to 59. *)
Definition loop_body (e : Env) (classifiers : gmap string Bundle) (len : nat)
    (st : Loop) (row : Row) : M Loop :=
  let idx := idx st + 1 in
  record ← row_ad row;
  match classifiers !! ad_lang record with
  | Some classifier =>
      st1 ← score e len classifier record idx (updates st);
      flush_full e st1
  | None => mret (mkLoop idx (updates st))
  end.

Fixpoint score_loop (e : Env) (classifiers : gmap string Bundle) (len : nat)
    (records : list Row) (st : Loop) : M Loop :=
  match records with
  | [] => mret st
  | row :: rest =>
      st1 ← loop_body e classifiers len st row;
      score_loop e classifiers len rest st1
  end.

(** Lines 61 and 62. *)
Definition flush_rest (e : Env) (st : Loop) : M unit :=
  match updates st with
  | [] => mret tt
  | _ :: _ => DB_bulk_query e update_query (updates st)
  end.

(** Lines 40 to 62: the loop and the last flush. *)
Definition run_loop (e : Env) (classifiers : gmap string Bundle) (len : nat)
    (records : list Row) : M unit :=
  st ← score_loop e classifiers len records (mkLoop 0 []);
  flush_rest e st.

(** Lines 29 and 30: the count, then the records. *)
Definition select (query : string) : M (nat * list Row) :=
  rows ← DB_query (count_query query);
  row0 ← first_row rows;
  len ← row_length row0;
  records ← DB_query query;
  mret (len, records).

Definition classify (e : Env) (newest : bool) (lang : option string) : M unit :=
  print (if newest then RunningNewest else RunningEvery);;
  let query := build_query newest lang in
  '(len, records) ← select query;
  classifiers ← lift (load_classifiers e (confs e) ∅);
  print (Found len);;
  run_loop e classifiers len records.

(** ** Notions used to state the properties *)

(** The rows selected by a query of the command, as the storage reads it. *)
Definition selection (newest : bool) (lang : option string) : option SQL.where_clause :=
  match SQL.tokenize (build_query newest lang) with
  | Some ts => SQL.parse_select ts
  | None => None
  end.

(** The world after one more line on the console. *)
Definition say (l : Line) (w : World) : World :=
  mkWorld (table w) (stdout w ++ [l]) (bulk_log w).

(** The world after a committed, and after a refused, bulk write. *)
Definition commit (us : list Update) (w : World) : World :=
  mkWorld (SQL.apply_updates us (table w)) (stdout w) (bulk_log w ++ [(us, true)]).
Definition refuse (us : list Update) (w : World) : World :=
  mkWorld (table w) (stdout w) (bulk_log w ++ [(us, false)]).

(** The probability a bundle gives an ad: [predict_proba(text)[0][1]]. *)
Definition score_value (e : Env) (b : Bundle) (a : Ad) : option Q :=
  political (predict_proba b (transform b [get_text e (ad_html a)])).

(** A scoreable record: one whose language has a registered classifier. *)
Definition scoreable (cs : gmap string Bundle) (row : Row) : bool :=
  match row with
  | AdRow a => bool_decide (is_Some (cs !! ad_lang a))
  | CountRow _ => false
  end.

(** The update a record gives rise to, if any. *)
Definition scored (e : Env) (cs : gmap string Bundle) (row : Row) : list Update :=
  match row with
  | AdRow a =>
      match cs !! ad_lang a with
      | Some b =>
          match score_value e b a with
          | Some p => [mkUpdate (ad_id a) p]
          | None => []
          end
      | None => []
      end
  | CountRow _ => []
  end.

(** The bulk writes a run added to the log. *)
Definition issued (w w' : World) : list (list Update * bool) :=
  drop (length (bulk_log w)) (bulk_log w').

(** The outcomes of one pass through the body of the loop. *)
Inductive step (e : Env) (cs : gmap string Bundle) (len : nat) (st : Loop) (w : World) :
    Row -> World * (Exn + Loop) -> Prop :=
| step_count n :
    step e cs len st w (CountRow n) (w, inl KeyError)
| step_skip a :
    cs !! ad_lang a = None ->
    step e cs len st w (AdRow a) (w, inr (mkLoop (idx st + 1) (updates st)))
| step_index a b :
    cs !! ad_lang a = Some b -> score_value e b a = None ->
    step e cs len st w (AdRow a) (w, inl IndexError)
| step_keep a b p :
    cs !! ad_lang a = Some b -> score_value e b a = Some p ->
    length (updates st ++ [mkUpdate (ad_id a) p]) < batch_size ->
    step e cs len st w (AdRow a)
      (say (Classified (ad_id a) (idx st + 1) len p) w,
       inr (mkLoop (idx st + 1) (updates st ++ [mkUpdate (ad_id a) p])))
| step_flush a b p :
    cs !! ad_lang a = Some b -> score_value e b a = Some p ->
    batch_size <= length (updates st ++ [mkUpdate (ad_id a) p]) ->
    bulk_fails e (length (bulk_log w)) = false ->
    step e cs len st w (AdRow a)
      (commit (updates st ++ [mkUpdate (ad_id a) p])
         (say (Classified (ad_id a) (idx st + 1) len p) w),
       inr (mkLoop (idx st + 1) []))
| step_refused a b p :
    cs !! ad_lang a = Some b -> score_value e b a = Some p ->
    batch_size <= length (updates st ++ [mkUpdate (ad_id a) p]) ->
    bulk_fails e (length (bulk_log w)) = true ->
    step e cs len st w (AdRow a)
      (refuse (updates st ++ [mkUpdate (ad_id a) p])
         (say (Classified (ad_id a) (idx st + 1) len p) w),
       inl WriteError).

(** An ad that was never scored: its probability is the sentinel 0. *)
Definition unscored (a : Ad) : bool := Qeq_bool (political_probability a) 0.

(** The records a run is meant to read. *)
Definition wanted (newest : bool) (lang : option string) (a : Ad) : bool :=
  (if newest then unscored a else true)
  && match truthy lang with
     | Some l => String.eqb (ad_lang a) l
     | None => true
     end.

(** A text without the quote character. *)
Fixpoint plain (s : string) : bool :=
  match s with
  | EmptyString => true
  | String c s' => negb (SQL.is_quote c) && plain s'
  end.

Definition plain_filter (lang : option string) : bool :=
  match lang with
  | Some l => plain l
  | None => true
  end.

(** The number of updates of each bulk write a run issued. *)
Definition sizes (w w' : World) : list nat :=
  (fun c => length c.1) <$> issued w w'.

(** What a sequence of updates makes of one ad. *)
Definition upd (us : list Update) (a : Ad) : Ad :=
  fold_left (fun a u => SQL.set_probability u a) us a.

(** The shape of the batches of a run: full ones, then at most one partial
    one. *)
Definition batches_shape (bs : list (list Update)) : Prop :=
  exists full tail,
    bs = full ++ tail
    /\ Forall (fun b => length b = batch_size) full
    /\ (tail = [] \/ exists b, tail = [b] /\ 0 < length b < batch_size).

(** The last line on the console is the progress line of the last update
    of a buffer. *)
Definition announces (len : nat) (us : list Update) (out : list Line) : Prop :=
  forall u, last us = Some u ->
  exists i, last out = Some (Classified (upd_id u) i len (probability u)).

(** ** A small instance *)

Definition demo_ad (i l : string) (p : Q) : Ad := mkAd i l "<p>vote</p>" p.

Definition demo_table : list Ad :=
  [demo_ad "a1" "en-US" 0; demo_ad "a2" "de-DE" (1 # 2);
   demo_ad "a3" "xx" 0; demo_ad "a4" "en-US" (1 # 3)].

(** Both configured languages load; every model answers [[1/4, 3/4]]. *)
Definition demo_env : Env :=
  mkEnv [("en-US", mkConf "en-US" ""); ("de-DE", mkConf "de-DE" "")]
        (fun _ => Some (fun _ => [[1 # 4; 3 # 4]]%Q))
        (fun _ => Some (fun docs => (fun _ => [1%Q]) <$> docs))
        (fun html => html)
        (fun _ => false).

Definition demo_world : World := mkWorld demo_table [] [].

(** A language filter carrying a quote. *)
Definition quoted_filter : string := "en-US' or 'a' = 'a".

(** The registry [demo_env] loads. *)
Definition demo_registry : gmap string Bundle :=
  <["de-DE" := mkBundle (fun _ => [[1 # 4; 3 # 4]]%Q) (fun docs => (fun _ => [1%Q]) <$> docs)]>
    (<["en-US" := mkBundle (fun _ => [[1 # 4; 3 # 4]]%Q) (fun docs => (fun _ => [1%Q]) <$> docs)]> ∅).

(** The world a run of [demo_env] in mode [newest] leaves. *)
Definition demo_after : World :=
  mkWorld [demo_ad "a1" "en-US" (3 # 4); demo_ad "a2" "de-DE" (1 # 2);
           demo_ad "a3" "xx" 0; demo_ad "a4" "en-US" (1 # 3)]
          [RunningNewest; Found 2; Classified "a1" 1 2 (3 # 4)]
          [([mkUpdate "a1" (3 # 4)], true)].

(** The scenario of 250 unscored English ads. *)
Definition demo_many : list Ad :=
  (fun n : nat => demo_ad ("ad" +:+ pretty n) "en-US" 0) <$> seq 0 250.

Definition demo_many_world : World := mkWorld demo_many [] [].

(** A storage that refuses the first bulk write, and a configuration whose
    German artifact cannot be opened. *)
Definition demo_refusing_env : Env :=
  mkEnv (confs demo_env) (load_classifier demo_env) (get_vectorizer demo_env)
        (get_text demo_env) (fun k => bool_decide (k = 0)).

Definition demo_broken_env : Env :=
  mkEnv (confs demo_env)
        (fun d => if String.eqb d "de-DE" then None else load_classifier demo_env d)
        (get_vectorizer demo_env) (get_text demo_env) (bulk_fails demo_env).

Definition demo_refused : World :=
  mkWorld demo_table
          [RunningNewest; Found 2; Classified "a1" 1 2 (3 # 4)]
          [([mkUpdate "a1" (3 # 4)], false)].

(** The worlds one and two runs in mode [newest] with [quoted_filter]
    leave. *)
Definition demo_quoted_once : World :=
  mkWorld [demo_ad "a1" "en-US" (3 # 4); demo_ad "a2" "de-DE" (3 # 4);
           demo_ad "a3" "xx" 0; demo_ad "a4" "en-US" (3 # 4)]
          [RunningNewest; Found 4;
           Classified "a1" 1 4 (3 # 4); Classified "a2" 2 4 (3 # 4);
           Classified "a4" 4 4 (3 # 4)]
          [([mkUpdate "a1" (3 # 4); mkUpdate "a2" (3 # 4); mkUpdate "a4" (3 # 4)],
            true)].

Definition demo_quoted_twice : World :=
  mkWorld (table demo_quoted_once)
          (stdout demo_quoted_once
           ++ [RunningNewest; Found 4;
               Classified "a1" 1 4 (3 # 4); Classified "a2" 2 4 (3 # 4);
               Classified "a4" 4 4 (3 # 4)])
          (bulk_log demo_quoted_once
           ++ [([mkUpdate "a1" (3 # 4); mkUpdate "a2" (3 # 4); mkUpdate "a4" (3 # 4)],
                true)]).

(** ** Further notions *)

(** Two confs of one language, with different artifacts. *)
Definition demo_twice_env : Env :=
  mkEnv [("old", mkConf "en-US" "v1"); ("new", mkConf "en-US" "v2")]
        (fun d => if String.eqb d "old" then Some (fun _ => [[1; 0]]%Q)
                  else Some (fun _ => [[1 # 4; 3 # 4]]%Q))
        (fun _ => Some (fun docs => (fun _ => [1%Q]) <$> docs))
        (fun html => html)
        (fun _ => false).

Definition demo_twice_registry : gmap string Bundle :=
  <["en-US" := mkBundle (fun _ => [[1 # 4; 3 # 4]]%Q) (fun docs => (fun _ => [1%Q]) <$> docs)]>
    (<["en-US" := mkBundle (fun _ => [[1; 0]]%Q) (fun docs => (fun _ => [1%Q]) <$> docs)]> ∅).

(** The progress line of an update: line 54. *)
Definition line_of (len idx : nat) (u : Update) : Line :=
  Classified (upd_id u) idx len (probability u).

(** The progress lines of a stream whose records are counted from [i]. *)
Fixpoint progress (e : Env) (cs : gmap string Bundle) (len i : nat)
    (records : list Row) : list Line :=
  match records with
  | [] => []
  | row :: rest =>
      (line_of len (i + 1) <$> scored e cs row) ++ progress e cs len (i + 1) rest
  end.

(** The updates a console announces. *)
Definition announced (ls : list Line) : list Update :=
  flat_map (fun l => match l with
                     | Classified i _ _ p => [mkUpdate i p]
                     | _ => []
                     end) ls.

(** The lines a run added to the console. *)
Definition printed (w w' : World) : list Line :=
  drop (length (stdout w)) (stdout w').

(** What a run that ends well makes of an ad: a wanted ad whose language
    has a bundle gets the probability the bundle gives it. *)
Definition rescored (e : Env) (cs : gmap string Bundle) (newest : bool)
    (lang : option string) (a : Ad) : Ad :=
  if wanted newest lang a then
    match cs !! ad_lang a with
    | Some b =>
        match score_value e b a with
        | Some p => mkAd (ad_id a) (ad_lang a) (ad_html a) p
        | None => a
        end
    | None => a
    end
  else a.

(** The world the second of two runs of [demo_refusing_env] leaves. *)
Definition demo_recovered : World :=
  mkWorld (table demo_after)
          (stdout demo_refused ++ [RunningNewest; Found 2; Classified "a1" 1 2 (3 # 4)])
          (bulk_log demo_refused ++ [([mkUpdate "a1" (3 # 4)], true)]).

(** A German model that answers a single column. *)
Definition demo_narrow_env : Env :=
  mkEnv (confs demo_env)
        (fun d => if String.eqb d "de-DE" then Some (fun _ => [[1%Q]])
                  else load_classifier demo_env d)
        (get_vectorizer demo_env) (get_text demo_env) (bulk_fails demo_env).

Definition demo_narrow_registry : gmap string Bundle :=
  <["de-DE" := mkBundle (fun _ => [[1%Q]]) (fun docs => (fun _ => [1%Q]) <$> docs)]>
    (<["en-US" := mkBundle (fun _ => [[1 # 4; 3 # 4]]%Q) (fun docs => (fun _ => [1%Q]) <$> docs)]> ∅).

(** * Properties *)

(** ** The lexer reads a text piece by piece *)

Lemma append_nil (b : string) : "" +:+ b = b.
Proof. reflexivity. Qed.

Lemma append_cons c (a b : string) : String c a +:+ b = String c (a +:+ b).
Proof. reflexivity. Qed.

Lemma lex_run_app st a b :
  SQL.lex_run st (a +:+ b) =
  (fst (SQL.lex_run (fst (SQL.lex_run st a)) b),
   snd (SQL.lex_run st a) ++ snd (SQL.lex_run (fst (SQL.lex_run st a)) b)).
Proof.
  revert st. induction a as [|c a IH]; intros st.
  - rewrite append_nil. simpl. by destruct (SQL.lex_run st b).
  - rewrite append_cons. simpl.
    destruct (SQL.lex_step st c) as [st1 ts1]. rewrite IH.
    destruct (SQL.lex_run st1 a) as [st2 ts2]; simpl.
    destruct (SQL.lex_run st2 b) as [st3 ts3]; simpl.
    by rewrite app_assoc.
Qed.

Lemma lex_count_head : SQL.lex_run SQL.Idle count_head = (SQL.Idle, SQL.count_open).
Proof. reflexivity. Qed.

(** After any text, the closing tokens of the counting statement are read
    as such, unless a string literal is still open. *)
Lemma lex_count_tail st :
  match SQL.lex_finish st with
  | Some tl =>
      SQL.lex_run st count_tail = (SQL.Idle, tl ++ SQL.count_close)
  | None => SQL.lex_finish (fst (SQL.lex_run st count_tail)) = None
  end.
Proof. by destruct st. Qed.

Lemma tokenize_count_query q :
  SQL.tokenize (count_query q) =
  match SQL.tokenize q with
  | Some ts => Some (SQL.count_open ++ ts ++ SQL.count_close)
  | None => None
  end.
Proof.
  unfold SQL.tokenize, count_query.
  rewrite !lex_run_app, lex_count_head. cbn [fst snd].
  destruct (SQL.lex_run SQL.Idle q) as [st ts]; cbn [fst snd].
  pose proof (lex_count_tail st) as H.
  destruct (SQL.lex_finish st) as [tl|].
  - rewrite H. cbn [fst snd SQL.lex_finish]. by rewrite app_nil_r, <- !app_assoc.
  - destruct (SQL.lex_run st count_tail) as [st' ts']; cbn [fst snd] in *. by rewrite H.
Qed.

(** ** The counting statement counts the rows of its inner select *)

Lemma token_eqb_refl t : SQL.token_eqb t t = true.
Proof. destruct t; simpl; auto using String.eqb_refl, Ascii.eqb_refl. Qed.

Lemma strip_prefix_app p ts : SQL.strip_prefix p (p ++ ts) = Some ts.
Proof. induction p as [|x p IH]; simpl; [done|]. by rewrite token_eqb_refl. Qed.

Lemma strip_suffix_app p ts : SQL.strip_suffix p (ts ++ p) = Some ts.
Proof.
  unfold SQL.strip_suffix. rewrite rev_app_distr, strip_prefix_app.
  by rewrite rev_involutive.
Qed.

Lemma parse_stmt_count ts :
  SQL.parse_stmt (SQL.count_open ++ ts ++ SQL.count_close) =
  SQL.CountAds <$> SQL.parse_select ts.
Proof.
  unfold SQL.parse_stmt. by rewrite strip_prefix_app, strip_suffix_app.
Qed.

Lemma parse_stmt_select ts :
  SQL.parse_stmt (SQL.TWord "select" :: SQL.TSym "*" :: ts) =
  SQL.SelectAds <$> SQL.parse_select (SQL.TWord "select" :: SQL.TSym "*" :: ts).
Proof. reflexivity. Qed.

Lemma build_query_head newest lang :
  exists rest, build_query newest lang = "select *" +:+ rest.
Proof.
  unfold build_query.
  destruct newest, (truthy lang); eexists; reflexivity.
Qed.

Lemma tokenize_build_query newest lang ts :
  SQL.tokenize (build_query newest lang) = Some ts ->
  exists ts', ts = SQL.TWord "select" :: SQL.TSym "*" :: ts'.
Proof.
  destruct (build_query_head newest lang) as [rest ->].
  unfold SQL.tokenize. rewrite lex_run_app.
  change (SQL.lex_run SQL.Idle "select *")
    with (SQL.Idle, [SQL.TWord "select"; SQL.TSym "*"]).
  cbn [fst snd]. destruct (SQL.lex_run SQL.Idle rest) as [st tl]; cbn [fst snd].
  destruct (SQL.lex_finish st); [|done].
  intros [= <-]. eexists. reflexivity.
Qed.

Lemma query_build_query newest lang t :
  SQL.query (build_query newest lang) t =
  match selection newest lang with
  | Some w => Some (AdRow <$> List.filter (SQL.eval_where w) t)
  | None => None
  end.
Proof.
  unfold SQL.query, selection.
  destruct (SQL.tokenize (build_query newest lang)) as [ts|] eqn:E; [|done].
  destruct (tokenize_build_query _ _ _ E) as [ts' ->].
  rewrite parse_stmt_select. by destruct (SQL.parse_select _).
Qed.

Lemma query_count_query newest lang t :
  SQL.query (count_query (build_query newest lang)) t =
  match selection newest lang with
  | Some w => Some [CountRow (length (List.filter (SQL.eval_where w) t))]
  | None => None
  end.
Proof.
  unfold SQL.query, selection. rewrite tokenize_count_query.
  destruct (SQL.tokenize (build_query newest lang)) as [ts|]; [|done].
  rewrite parse_stmt_count. by destruct (SQL.parse_select ts).
Qed.

(** ** The monad and the body of the loop *)

Lemma bind_inr {A B} (m : M A) (k : A -> M B) w w1 a :
  m w = (w1, inr a) -> (m ≫= k) w = k a w1.
Proof. unfold mbind, M_bind. by intros ->. Qed.

Lemma bind_inl {A B} (m : M A) (k : A -> M B) w w1 ex :
  m w = (w1, inl ex) -> (m ≫= k) w = (w1, inl ex).
Proof. unfold mbind, M_bind. by intros ->. Qed.

Lemma is_update_update_query : SQL.is_update update_query = true.
Proof. reflexivity. Qed.

Lemma DB_bulk_query_eq e us w :
  DB_bulk_query e update_query us w =
  if bulk_fails e (length (bulk_log w))
  then (refuse us w, inl WriteError) else (commit us w, inr tt).
Proof. unfold DB_bulk_query. by rewrite is_update_update_query. Qed.

Lemma loop_body_step e cs len st w row :
  step e cs len st w row (loop_body e cs len st row w).
Proof.
  destruct row as [a|n]; [|constructor].
  unfold loop_body. cbn [row_ad]. erewrite bind_inr by reflexivity.
  destruct (cs !! ad_lang a) as [b|] eqn:Hb; [|by constructor].
  unfold score. fold (score_value e b a).
  destruct (score_value e b a) as [p|] eqn:Hp.
  - cbn [upd_id probability].
    erewrite bind_inr; last by (erewrite bind_inr by reflexivity; reflexivity).
    unfold flush_full. cbn [updates idx]. case_bool_decide as Hlen.
    + unfold mbind, M_bind. rewrite DB_bulk_query_eq.
      destruct (bulk_fails e _) eqn:Hf.
      * eapply step_refused; eauto.
      * eapply step_flush; eauto.
    + eapply step_keep; eauto. lia.
  - erewrite bind_inl by reflexivity. eapply step_index; eauto.
Qed.

(** ** The loop *)

Lemma score_loop_cons e cs len row rest st w :
  score_loop e cs len (row :: rest) st w =
  match loop_body e cs len st row w with
  | (w1, inr st1) => score_loop e cs len rest st1 w1
  | (w1, inl ex) => (w1, inl ex)
  end.
Proof. reflexivity. Qed.

Lemma scored_skip e cs a : cs !! ad_lang a = None -> scored e cs (AdRow a) = [].
Proof. simpl. by intros ->. Qed.

Lemma scored_some e cs a b p :
  cs !! ad_lang a = Some b -> score_value e b a = Some p ->
  scored e cs (AdRow a) = [mkUpdate (ad_id a) p].
Proof. simpl. by intros -> ->. Qed.

Lemma scoreable_skip cs a : cs !! ad_lang a = None -> scoreable cs (AdRow a) = false.
Proof. simpl. intros ->. apply bool_decide_eq_false. by intros [? ?]. Qed.

Lemma scoreable_some cs a b : cs !! ad_lang a = Some b -> scoreable cs (AdRow a) = true.
Proof. simpl. intros ->. apply bool_decide_eq_true. by eexists. Qed.

(** What a pass over [records] leaves behind, however it ends: the log
    grows by full batches, all committed but possibly a last refused one;
    the table is the old one with the committed batches applied; the batches
    and the buffer together are the updates of the scoreable records, in
    order. *)
Lemma score_loop_spec e cs len records : forall st w w' r,
  score_loop e cs len records st w = (w', r) ->
  length (updates st) < batch_size ->
  exists bs fl rest,
    bulk_log w' = bulk_log w ++ ((fun b => (b, true)) <$> bs) ++ ((fun b => (b, false)) <$> fl)
    /\ table w' = SQL.apply_updates (concat bs) (table w)
    /\ Forall (fun b => length b = batch_size) (bs ++ fl)
    /\ concat (bs ++ fl) ++ rest = updates st ++ flat_map (scored e cs) records
    /\ match r with
       | inr st' =>
           fl = [] /\ rest = updates st' /\ length (updates st') < batch_size
           /\ idx st' = idx st + length records
           /\ length (flat_map (scored e cs) records)
              = length (List.filter (scoreable cs) records)
       | inl ex =>
           (ex = WriteError ->
            exists b, fl = [b] /\ bulk_fails e (length (bulk_log w) + length bs) = true)
           /\ (ex <> WriteError -> fl = [])
       end.
Proof.
  induction records as [|row records IH]; intros st w w' r Hrun Hlt.
  { injection Hrun as <- <-. exists [], [], (updates st). simpl.
    rewrite !app_nil_r. repeat split; auto with lia. }
  rewrite score_loop_cons in Hrun.
  pose proof (loop_body_step e cs len st w row) as Hs.
  remember (loop_body e cs len st row w) as res eqn:Eres. clear Eres.
  destruct Hs as [n|a Hn|a b Hb Hp|a b p Hb Hp Hlen|a b p Hb Hp Hlen Hf|a b p Hb Hp Hlen Hf].
  - injection Hrun as <- <-.
    exists [], [], (updates st ++ flat_map (scored e cs) (CountRow n :: records)).
    simpl. rewrite !app_nil_r. repeat split; auto; congruence.
  - apply IH in Hrun as (bs & fl & rest & Hlog & Htab & Hall & Hcat & Hr); [|done].
    exists bs, fl, rest. cbn [flat_map].
    rewrite (scored_skip _ _ _ Hn). cbn [List.filter].
    rewrite (scoreable_skip _ _ Hn). simpl in *.
    repeat split; auto. destruct r as [ex|st']; [done|].
    destruct Hr as (? & ? & ? & ? & ?). repeat split; auto with lia.
  - injection Hrun as <- <-.
    exists [], [], (updates st ++ flat_map (scored e cs) (AdRow a :: records)).
    simpl. rewrite !app_nil_r. repeat split; auto; congruence.
  - apply IH in Hrun as (bs & fl & rest & Hlog & Htab & Hall & Hcat & Hr); [|done].
    exists bs, fl, rest. cbn [flat_map].
    rewrite (scored_some _ _ _ _ _ Hb Hp). cbn [List.filter].
    rewrite (scoreable_some _ _ _ Hb). simpl in *.
    repeat split; auto.
    + by rewrite Hcat, <- app_assoc.
    + destruct r as [ex|st']; [done|].
      destruct Hr as (? & ? & ? & ? & ?). repeat split; auto with lia.
  - set (b0 := updates st ++ [mkUpdate (ad_id a) p]) in *.
    apply IH in Hrun as (bs & fl & rest & Hlog & Htab & Hall & Hcat & Hr);
      [|simpl; unfold batch_size; lia].
    exists (b0 :: bs), fl, rest. cbn [flat_map].
    rewrite (scored_some _ _ _ _ _ Hb Hp). cbn [List.filter].
    rewrite (scoreable_some _ _ _ Hb). simpl in *.
    repeat split; auto.
    + by rewrite Hlog, <- app_assoc.
    + rewrite Htab. unfold SQL.apply_updates. by rewrite fold_left_app.
    + constructor; [|done]. subst b0. rewrite length_app in *. simpl in *.
      unfold batch_size in *. lia.
    + rewrite <- !app_assoc. rewrite Hcat. subst b0. by rewrite <- app_assoc.
    + destruct r as [ex|st'].
      * destruct Hr as [Hw Hne]. split; [|done]. intros Hex.
        destruct (Hw Hex) as (b1 & -> & Hf'). exists b1. split; [done|].
        rewrite length_app in Hf'. simpl in Hf'.
        by replace (length (bulk_log w) + S (length bs))
          with (length (bulk_log w) + 1 + length bs) by lia.
      * destruct Hr as (? & ? & ? & ? & ?). repeat split; auto with lia.
  - injection Hrun as <- <-.
    set (b0 := updates st ++ [mkUpdate (ad_id a) p]) in *.
    exists [], [b0], (flat_map (scored e cs) records).
    cbn [flat_map]. rewrite (scored_some _ _ _ _ _ Hb Hp).
    simpl. rewrite !app_nil_r. repeat split; auto.
    + constructor; [|constructor]. subst b0. rewrite length_app in *. simpl in *.
      unfold batch_size in *. lia.
    + subst b0. by rewrite <- app_assoc.
    + intros _. exists b0. split; [done|]. by rewrite Nat.add_0_r.
    + congruence.
Qed.

Lemma flush_rest_eq e st w :
  flush_rest e st w =
  match updates st with
  | [] => (w, inr tt)
  | _ :: _ =>
      if bulk_fails e (length (bulk_log w))
      then (refuse (updates st) w, inl WriteError)
      else (commit (updates st) w, inr tt)
  end.
Proof.
  unfold flush_rest. destruct (updates st); [done|]. by rewrite DB_bulk_query_eq.
Qed.

Lemma run_loop_eq e cs len records w :
  run_loop e cs len records w =
  match score_loop e cs len records (mkLoop 0 []) w with
  | (w1, inr st) => flush_rest e st w1
  | (w1, inl ex) => (w1, inl ex)
  end.
Proof. reflexivity. Qed.

(** The whole of lines 40 to 62, however it ends. *)
Lemma run_loop_spec e cs len records w w' r :
  run_loop e cs len records w = (w', r) ->
  exists bs fl rest,
    bulk_log w' = bulk_log w ++ ((fun b => (b, true)) <$> bs) ++ ((fun b => (b, false)) <$> fl)
    /\ table w' = SQL.apply_updates (concat bs) (table w)
    /\ batches_shape (bs ++ fl)
    /\ concat (bs ++ fl) ++ rest = flat_map (scored e cs) records
    /\ match r with
       | inr _ =>
           fl = [] /\ rest = []
           /\ length (flat_map (scored e cs) records)
              = length (List.filter (scoreable cs) records)
       | inl ex =>
           (ex = WriteError ->
            exists b, fl = [b] /\ bulk_fails e (length (bulk_log w) + length bs) = true)
           /\ (ex <> WriteError -> fl = [])
       end.
Proof.
  rewrite run_loop_eq.
  destruct (score_loop e cs len records (mkLoop 0 []) w) as [w1 r1] eqn:Hloop.
  apply score_loop_spec in Hloop as (bs & fl & rest & Hlog & Htab & Hall & Hcat & Hr);
    [|simpl; unfold batch_size; lia].
  simpl in Hcat. destruct r1 as [ex|st].
  - intros [= <- <-]. exists bs, fl, rest. repeat split; auto; try apply Hr.
    exists (bs ++ fl), []. rewrite app_nil_r. auto.
  - destruct Hr as (-> & -> & Hlt & _ & Hcount). rewrite app_nil_r in *.
    rewrite flush_rest_eq.
    destruct (updates st) as [|u us] eqn:Hus.
    + intros [= <- <-]. exists bs, [], []. rewrite !app_nil_r in *.
      repeat split; auto. exists bs, []. rewrite app_nil_r. auto.
    + assert (Hpart : 0 < length (u :: us) < batch_size) by (simpl in *; lia).
      destruct (bulk_fails e (length (bulk_log w1))) eqn:Hf; intros [= <- <-].
      * exists bs, [u :: us], []. simpl. rewrite ?app_nil_r.
        repeat split; auto.
        -- by rewrite Hlog, <- app_assoc.
        -- exists bs, [u :: us]. repeat split; auto. right. by eexists.
        -- by rewrite concat_app; simpl; rewrite app_nil_r.
        -- intros _. eexists; split; [done|].
           by rewrite Hlog, length_app, length_fmap in Hf.
        -- congruence.
      * exists (bs ++ [u :: us]), [], []. simpl. rewrite ?app_nil_r.
        repeat split; auto.
        -- by rewrite Hlog, fmap_app, <- app_assoc.
        -- rewrite Htab, concat_app. simpl. rewrite app_nil_r.
           unfold SQL.apply_updates. by rewrite fold_left_app.
        -- exists bs, [u :: us]. repeat split; auto. right. by eexists.
        -- by rewrite concat_app; simpl; rewrite app_nil_r.
Qed.

(** ** The command, stage by stage *)

Lemma select_eq newest lang w :
  select (build_query newest lang) w =
  match selection newest lang with
  | Some wc =>
      let rs := List.filter (SQL.eval_where wc) (table w) in
      (w, inr (length rs, AdRow <$> rs))
  | None => (w, inl SQLError)
  end.
Proof.
  unfold select, mbind, M_bind, DB_query.
  rewrite query_count_query.
  destruct (selection newest lang) as [wc|] eqn:E; [|done].
  cbn [first_row row_length mret M_ret].
  by rewrite query_build_query, E.
Qed.

Lemma classify_eq e newest lang w :
  classify e newest lang w =
  let w1 := say (if newest then RunningNewest else RunningEvery) w in
  match selection newest lang with
  | None => (w1, inl SQLError)
  | Some wc =>
      let rs := List.filter (SQL.eval_where wc) (table w) in
      match load_classifiers e (confs e) ∅ with
      | inl ex => (w1, inl ex)
      | inr cs => run_loop e cs (length rs) (AdRow <$> rs) (say (Found (length rs)) w1)
      end
  end.
Proof.
  unfold classify. unfold mbind at 1. unfold M_bind at 1. cbn [print].
  fold (say (if newest then RunningNewest else RunningEvery) w).
  unfold mbind at 1. unfold M_bind at 1. rewrite select_eq.
  destruct (selection newest lang) as [wc|]; [|done].
  cbv zeta. unfold mbind at 1. unfold M_bind at 1. unfold lift.
  destruct (load_classifiers e (confs e) ∅) as [ex|cs]; [done|].
  reflexivity.
Qed.

(** ** Selection *)

Lemma filter_all {A} (f : A -> bool) (l : list A) :
  (forall x, f x = true) -> List.filter f l = l.
Proof.
  intros H. induction l as [|x l IH]; simpl; [done|]. by rewrite H, IH.
Qed.

Lemma selection_no_lang newest :
  selection newest None =
  Some (if newest then [[SQL.EqNum (SQL.OCol SQL.CProb) (SQL.ONum 0)]] else [[]]).
Proof. by destruct newest. Qed.

Lemma build_query_empty newest : build_query newest (Some "") = build_query newest None.
Proof. reflexivity. Qed.

(** C6: the count statement wraps the very select the stream is read with,
    so the selector hands back, for any mode and any language filter, the
    records of the query together with their number, and the command
    reports ([Found]) and uses as total the length of the stream it then
    iterates; a query the storage rejects ends the run at the count. *)
Theorem count_is_stream_length e newest lang w :
  SQL.query (count_query (build_query newest lang)) (table w)
  = (fun records => [CountRow (length records)])
      <$> SQL.query (build_query newest lang) (table w)
  /\ select (build_query newest lang) w
     = match SQL.query (build_query newest lang) (table w) with
       | Some records => (w, inr (length records, records))
       | None => (w, inl SQLError)
       end
  /\ classify e newest lang w
     = let w1 := say (if newest then RunningNewest else RunningEvery) w in
       match SQL.query (build_query newest lang) (table w) with
       | Some records =>
           match load_classifiers e (confs e) ∅ with
           | inr cs =>
               run_loop e cs (length records) records (say (Found (length records)) w1)
           | inl ex => (w1, inl ex)
           end
       | None => (w1, inl SQLError)
       end.
Proof.
  rewrite classify_eq, select_eq, query_count_query, query_build_query.
  destruct (selection newest lang) as [wc|]; simpl; [|done].
  by rewrite length_fmap.
Qed.

(** C10: an empty string given as language filter is no filter: the query
    text, and so the whole run, is the one of a run without [--lang]; the
    condition on [lang] is appended exactly for a non-empty string; and the
    query of an empty string reads the ads of every language (all of them
    in mode [every], the unscored ones in mode [newest]). *)
Theorem empty_lang_is_no_filter e newest w c l :
  build_query newest (Some "") = build_query newest None
  /\ classify e newest (Some "") w = classify e newest None w
  /\ build_query true (Some (String c l))
     = "select * from ads where political_probability = 0"
       +:+ " and lang = '" +:+ String c l +:+ "'"
  /\ build_query false (Some (String c l))
     = "select * from ads" +:+ " where lang = '" +:+ String c l +:+ "'"
  /\ build_query true None = "select * from ads where political_probability = 0"
  /\ build_query false None = "select * from ads"
  /\ SQL.query (build_query false (Some "")) (table w) = Some (AdRow <$> table w)
  /\ SQL.query (build_query true (Some "")) (table w)
     = Some (AdRow <$> List.filter unscored (table w)).
Proof.
  repeat split.
  - rewrite build_query_empty, query_build_query, selection_no_lang.
    by rewrite filter_all.
  - rewrite build_query_empty, query_build_query, selection_no_lang.
    do 2 f_equal. apply filter_ext. intros a. simpl.
    by rewrite orb_false_r, andb_true_r.
Qed.

(** ** The registry *)

Lemma load_classifiers_fails e cs d c :
  In (d, c) cs ->
  load_classifier e d = None \/ get_vectorizer e c = None ->
  forall acc, load_classifiers e cs acc = inl LoadError.
Proof.
  intros Hin Hbad. induction cs as [|[d' c'] cs IH]; [done|].
  intros acc. simpl.
  destruct (load_classifier e d') as [m|] eqn:Hm; [|done].
  destruct (get_vectorizer e c') as [v|] eqn:Hv; [|done].
  destruct Hin as [[= -> ->]|Hin]; [|by apply IH].
  destruct Hbad; congruence.
Qed.

(** A registry that was built holds a bundle for every configured
    language. *)
Lemma load_classifiers_complete e cs : forall acc m,
  load_classifiers e cs acc = inr m ->
  (forall k, is_Some (acc !! k) -> is_Some (m !! k))
  /\ forall d c, In (d, c) cs -> is_Some (m !! language c).
Proof.
  induction cs as [|[d' c'] cs IH]; intros acc m Hload; simpl in Hload.
  { injection Hload as <-. split; [done|]. by intros ? ? []. }
  destruct (load_classifier e d') as [p|]; [|done].
  destruct (get_vectorizer e c') as [v|]; [|done].
  destruct (IH _ _ Hload) as [Hkeep Hall]. split.
  - intros k Hk. apply Hkeep. rewrite lookup_insert. case_decide; [by eexists|done].
  - intros d c [[= -> ->]|Hin]; [|by eapply Hall].
    apply Hkeep. rewrite lookup_insert_eq. by eexists.
Qed.

Lemma load_classifiers_loaded e cs : forall acc m,
  load_classifiers e cs acc = inr m ->
  forall d c, In (d, c) cs ->
              is_Some (load_classifier e d) /\ is_Some (get_vectorizer e c).
Proof.
  induction cs as [|[d' c'] cs IH]; intros acc m Hload d c Hin; [done|].
  simpl in Hload.
  destruct (load_classifier e d') as [f|] eqn:Hf; [|done].
  destruct (get_vectorizer e c') as [v|] eqn:Hv; [|done].
  destruct Hin as [[= <- <-]|Hin]; [|by eapply IH].
  rewrite Hf, Hv. by split; eexists.
Qed.

(** Every bundle of a registry that was built was there before or is made
    of the artifact and the vectorizer of a conf of its language. *)
Lemma load_classifiers_sources e cs : forall acc m,
  load_classifiers e cs acc = inr m ->
  forall k b, m !! k = Some b ->
    acc !! k = Some b
    \/ exists d c f v, In (d, c) cs /\ language c = k
                       /\ load_classifier e d = Some f
                       /\ get_vectorizer e c = Some v /\ b = mkBundle f v.
Proof.
  induction cs as [|[d' c'] cs IH]; intros acc m Hload k b Hk; simpl in Hload.
  { injection Hload as <-. by left. }
  destruct (load_classifier e d') as [f|] eqn:Hf; [|done].
  destruct (get_vectorizer e c') as [v|] eqn:Hv; [|done].
  destruct (IH _ _ Hload k b Hk) as [Hacc|(d & c & f' & v' & Hin & ?)].
  - rewrite lookup_insert in Hacc. case_decide as Heq; [|by left].
    injection Hacc as <-. right. exists d', c', f, v. split_and!; auto. by left.
  - right. exists d, c, f', v'. split_and!; try tauto. by right.
Qed.

Lemma load_classifiers_failed e cs : forall acc ex,
  load_classifiers e cs acc = inl ex ->
  ex = LoadError
  /\ exists d c, In (d, c) cs
                 /\ (load_classifier e d = None \/ get_vectorizer e c = None).
Proof.
  induction cs as [|[d' c'] cs IH]; intros acc ex Hload; [done|].
  simpl in Hload.
  destruct (load_classifier e d') as [f|] eqn:Hf.
  2:{ injection Hload as <-. split; [done|]. exists d', c'. split; [by left|by left]. }
  destruct (get_vectorizer e c') as [v|] eqn:Hv.
  2:{ injection Hload as <-. split; [done|]. exists d', c'. split; [by left|by right]. }
  destruct (IH _ _ Hload) as (-> & d & c & Hin & Hbad).
  split; [done|]. exists d, c. split; [by right|done].
Qed.

(** C8: the bundles are all loaded before the loop starts, and the loop
    runs with all of them or not at all.  When the artifact or the
    vectorizer of any one conf cannot be loaded, the registry is not built
    and the run ends with an exception (the load error, when the storage
    accepted the queries) having only announced its mode: the table and the
    log of bulk writes are as before and no record was scored.  A registry
    that was built has had every conf loaded and holds, for the language of
    every conf, a bundle made of the artifact and the vectorizer of a conf
    of that language.  Once the records are read, the command either stops
    on the failed load or prints the total and runs the loop with that
    registry; and the load fails for no other reason than a conf that does
    not load. *)
Theorem all_bundles_or_no_run e newest lang w :
  (forall d c,
     In (d, c) (confs e) ->
     load_classifier e d = None \/ get_vectorizer e c = None ->
     load_classifiers e (confs e) ∅ = inl LoadError
     /\ exists ex,
          classify e newest lang w
          = (say (if newest then RunningNewest else RunningEvery) w, inl ex)
          /\ (is_Some (SQL.query (build_query newest lang) (table w)) -> ex = LoadError)
          /\ table (say (if newest then RunningNewest else RunningEvery) w) = table w
          /\ bulk_log (say (if newest then RunningNewest else RunningEvery) w)
             = bulk_log w)
  /\ (forall cs,
        load_classifiers e (confs e) ∅ = inr cs ->
        forall d c,
          In (d, c) (confs e) ->
          is_Some (load_classifier e d) /\ is_Some (get_vectorizer e c)
          /\ exists d' c' f v,
               In (d', c') (confs e) /\ language c' = language c
               /\ load_classifier e d' = Some f /\ get_vectorizer e c' = Some v
               /\ cs !! language c = Some (mkBundle f v))
  /\ (forall records,
        SQL.query (build_query newest lang) (table w) = Some records ->
        classify e newest lang w
        = match load_classifiers e (confs e) ∅ with
          | inr cs =>
              run_loop e cs (length records) records
                (say (Found (length records))
                   (say (if newest then RunningNewest else RunningEvery) w))
          | inl ex => (say (if newest then RunningNewest else RunningEvery) w, inl ex)
          end)
  /\ (forall ex,
        load_classifiers e (confs e) ∅ = inl ex ->
        ex = LoadError
        /\ exists d c, In (d, c) (confs e)
                       /\ (load_classifier e d = None \/ get_vectorizer e c = None)).
Proof.
  split_and!.
  - intros d c Hin Hbad.
    pose proof (load_classifiers_fails e _ _ _ Hin Hbad ∅) as Hload.
    split; [done|]. rewrite classify_eq, query_build_query, Hload. cbv zeta.
    destruct (selection newest lang) as [wc|].
    + exists LoadError. by repeat split.
    + exists SQLError. repeat split. by intros [? ?].
  - intros cs Hload d c Hin.
    destruct (load_classifiers_loaded _ _ _ _ Hload d c Hin) as [Hf Hv].
    split; [done|]. split; [done|].
    destruct (load_classifiers_complete _ _ _ _ Hload) as [_ Hall].
    destruct (Hall d c Hin) as [b Hb].
    destruct (load_classifiers_sources _ _ _ _ Hload _ _ Hb)
      as [Hempty|(d' & c' & f & v & Hin' & Hl & Hf' & Hv' & ->)].
    + by rewrite lookup_empty in Hempty.
    + by exists d', c', f, v.
  - intros records Hq. rewrite query_build_query in Hq. rewrite classify_eq.
    destruct (selection newest lang) as [wc|]; [|done].
    injection Hq as <-. cbv zeta. by rewrite length_fmap.
  - intros ex Hload. by eapply load_classifiers_failed.
Qed.

(** ** Batches *)

Lemma issued_app w w' l : bulk_log w' = bulk_log w ++ l -> issued w w' = l.
Proof. unfold issued. intros ->. by rewrite drop_app_length. Qed.

Lemma full_batches (full : list (list Update)) :
  Forall (fun b => length b = batch_size) full ->
  length (concat full) = 100 * length full
  /\ length <$> full = replicate (length full) 100.
Proof.
  induction 1 as [|b full Hb _ [IH1 IH2]]; [done|].
  split.
  - simpl. rewrite length_app, IH1, Hb. unfold batch_size. lia.
  - by rewrite fmap_cons, IH2, Hb.
Qed.

Lemma batch_sizes bs N :
  batches_shape bs -> length (concat bs) = N ->
  length <$> bs = replicate (N / 100) 100 ++ (if (N mod 100 =? 0)%nat then [] else [N mod 100]).
Proof.
  intros (full & tail & -> & Hfull & Htail) HN.
  destruct (full_batches full Hfull) as [Hlen Hmap].
  rewrite concat_app, length_app, Hlen in HN. rewrite fmap_app, Hmap.
  destruct Htail as [->|(b & -> & Hb)]; cbn [concat] in HN;
    rewrite ?app_nil_r in HN; cbn [length] in HN.
  - rewrite <- (Nat.div_unique N 100 (length full) 0) by lia.
    rewrite <- (Nat.mod_unique N 100 (length full) 0) by lia. done.
  - unfold batch_size in Hb.
    rewrite <- (Nat.div_unique N 100 (length full) (length b)) by lia.
    rewrite <- (Nat.mod_unique N 100 (length full) (length b)) by lia.
    destruct (Nat.eqb_spec (length b) 0); [lia|done].
Qed.

Lemma number_of_batches N :
  length (replicate (N / 100) 100 ++ (if (N mod 100 =? 0)%nat then [] else [N mod 100]))
  = (N + 99) / 100.
Proof.
  rewrite length_app, length_replicate.
  pose proof (Nat.div_mod_eq N 100) as HN.
  pose proof (Nat.mod_upper_bound N 100) as Hr.
  destruct (Nat.eqb_spec (N mod 100) 0) as [H0|H0]; cbn [length].
  - apply (Nat.div_unique _ 100 _ 99); lia.
  - apply (Nat.div_unique _ 100 _ (N mod 100 - 1)); lia.
Qed.

Lemma last_batch N :
  0 < N ->
  last (replicate (N / 100) 100 ++ (if (N mod 100 =? 0)%nat then [] else [N mod 100]))
  = Some (if (N mod 100 =? 0)%nat then 100 else N mod 100).
Proof.
  intros HN. pose proof (Nat.div_mod_eq N 100) as Hdiv.
  destruct (Nat.eqb_spec (N mod 100) 0) as [H0|H0].
  - rewrite app_nil_r. destruct (N / 100) as [|k] eqn:Hk; [lia|].
    rewrite replicate_S_end, last_snoc. done.
  - by rewrite last_snoc.
Qed.

(** ** Runs without faults end well *)

Lemma score_loop_total e cs len records :
  (forall k, bulk_fails e k = false) ->
  (forall a b, In (AdRow a) records -> cs !! ad_lang a = Some b ->
               is_Some (score_value e b a)) ->
  (forall n, ~ In (CountRow n) records) ->
  forall st w, exists w' st', score_loop e cs len records st w = (w', inr st').
Proof.
  intros Hok. induction records as [|row records IH]; intros Hsc Hrows st w.
  { by exists w, st. }
  rewrite score_loop_cons.
  pose proof (loop_body_step e cs len st w row) as Hs.
  remember (loop_body e cs len st row w) as res eqn:Eres. clear Eres.
  assert (Hsc' : forall a b, In (AdRow a) records -> cs !! ad_lang a = Some b ->
                             is_Some (score_value e b a))
    by (intros; eapply Hsc; [by right|done]).
  assert (Hrows' : forall n, ~ In (CountRow n) records)
    by (intros n Hn; eapply Hrows; by right).
  destruct Hs as [n|a Hn|a b Hb Hp|a b p Hb Hp Hlen|a b p Hb Hp Hlen Hf|a b p Hb Hp Hlen Hf];
    try (by apply IH).
  - destruct (Hrows n). by left.
  - destruct (Hsc a b (or_introl eq_refl) Hb) as [p Hp']. congruence.
  - rewrite Hok in Hf. done.
Qed.

Lemma run_loop_total e cs len records w :
  (forall k, bulk_fails e k = false) ->
  (forall a b, In (AdRow a) records -> cs !! ad_lang a = Some b ->
               is_Some (score_value e b a)) ->
  (forall n, ~ In (CountRow n) records) ->
  exists w', run_loop e cs len records w = (w', inr tt).
Proof.
  intros Hok Hsc Hrows. rewrite run_loop_eq.
  destruct (score_loop_total e cs len records Hok Hsc Hrows (mkLoop 0 []) w)
    as (w1 & st & ->).
  rewrite flush_rest_eq. destruct (updates st); [by eexists|].
  rewrite Hok. by eexists.
Qed.

Lemma query_rows newest lang t records :
  SQL.query (build_query newest lang) t = Some records ->
  exists wc, selection newest lang = Some wc
             /\ records = AdRow <$> List.filter (SQL.eval_where wc) t.
Proof.
  rewrite query_build_query. destruct (selection newest lang) as [wc|]; [|done].
  intros [= <-]. by exists wc.
Qed.

Lemma no_count_row (l : list Ad) n : ~ In (CountRow n) (AdRow <$> l).
Proof. intros H. apply in_map_iff in H as (? & ? & _). done. Qed.

(** C1: a run without faults over a stream with [N] scoreable records ends
    well and issues exactly ceil(N/100) bulk writes, all committed: N/100
    writes of exactly 100 updates, followed, when 100 does not divide N, by
    one write of the N mod 100 updates left at the end of the stream; so
    the last write carries N mod 100 updates, or 100 when 100 divides N,
    and no write at all is issued when N = 0. *)
Theorem bulk_writes_of_a_run e newest lang w cs records :
  SQL.query (build_query newest lang) (table w) = Some records ->
  load_classifiers e (confs e) ∅ = inr cs ->
  (forall k, bulk_fails e k = false) ->
  (forall a b, In (AdRow a) records -> cs !! ad_lang a = Some b ->
               is_Some (score_value e b a)) ->
  let N := length (List.filter (scoreable cs) records) in
  exists w',
    classify e newest lang w = (w', inr tt)
    /\ Forall (fun c => c.2 = true) (issued w w')
    /\ sizes w w' = replicate (N / 100) 100
                    ++ (if (N mod 100 =? 0)%nat then [] else [N mod 100])
    /\ length (issued w w') = (N + 99) / 100
    /\ (N = 0 -> issued w w' = [])
    /\ (0 < N -> last (sizes w w') = Some (if (N mod 100 =? 0)%nat then 100 else N mod 100)).
Proof.
  intros Hq Hload Hok Hsc N.
  destruct (query_rows _ _ _ _ Hq) as (wc & Hsel & Hrec).
  rewrite classify_eq, Hsel, Hload. cbv zeta. rewrite <- Hrec.
  set (w1 := say (Found _) (say _ w)).
  assert (Hrows : forall n, ~ In (CountRow n) records)
    by (rewrite Hrec; apply no_count_row).
  destruct (run_loop_total e cs (length (List.filter (SQL.eval_where wc) (table w)))
              records w1 Hok Hsc Hrows) as [w' Hrun].
  exists w'. split; [done|].
  destruct (run_loop_spec _ _ _ _ _ _ _ Hrun)
    as (bs & fl & rest & Hlog & _ & Hshape & Hcat & -> & -> & Hcount).
  rewrite !app_nil_r in *.
  assert (Hiss : issued w w' = (fun b => (b, true)) <$> bs)
    by (by apply issued_app).
  assert (Hsizes : sizes w w' = replicate (N / 100) 100
                   ++ (if (N mod 100 =? 0)%nat then [] else [N mod 100])).
  { unfold sizes. rewrite Hiss, <- list_fmap_compose.
    apply batch_sizes; [done|]. by rewrite Hcat, Hcount. }
  assert (Hlen : length (issued w w') = (N + 99) / 100).
  { rewrite <- number_of_batches, <- Hsizes. unfold sizes. by rewrite length_fmap. }
  repeat split; auto.
  - rewrite Hiss. apply Forall_fmap. by apply Forall_true.
  - intros HN. rewrite HN in Hlen. by destruct (issued w w').
  - intros HN. rewrite Hsizes. by apply last_batch.
Qed.

(** ** What the log of a run looks like *)

Lemma in_issued bs fl (us : list Update) (ok : bool) :
  In (us, ok) (((fun b => (b, true)) <$> bs) ++ ((fun b => (b, false)) <$> fl)) ->
  (ok = true /\ In us bs) \/ (ok = false /\ In us fl).
Proof.
  intros H. apply in_app_or in H as [H|H]; apply in_map_iff in H as (b & [= <- <-] & Hb); auto.
Qed.

Lemma batches_shape_bounds bs us :
  batches_shape bs -> In us bs -> 1 <= length us <= batch_size.
Proof.
  intros (full & tail & -> & Hfull & Htail) Hin.
  apply in_app_or in Hin as [Hin|Hin].
  - rewrite Forall_forall in Hfull. apply list_elem_of_In, Hfull in Hin.
    unfold batch_size in *. lia.
  - destruct Htail as [->|(b & -> & Hb)]; [done|].
    destruct Hin as [<-|[]]. lia.
Qed.

(** C9: after any number of records the buffer holds fewer than 100
    updates; inside an iteration, between the append and the test, it holds
    at most 100; a buffer of 100 is written and emptied by the test; and
    every bulk write of a run, whether committed or refused, carries between
    1 and 100 updates. *)
Theorem buffer_is_bounded e cs len pre w w1 st1 :
  score_loop e cs len pre (mkLoop 0 []) w = (w1, inr st1) ->
  length (updates st1) < 100
  /\ (forall b a i w2 st2,
        score e len b a i (updates st1) w1 = (w2, inr st2) ->
        length (updates st2) <= 100)
  /\ (forall st2 w2 w3 st3,
        100 <= length (updates st2) ->
        flush_full e st2 w2 = (w3, inr st3) -> updates st3 = [])
  /\ (forall post w' r us ok,
        run_loop e cs len (pre ++ post) w = (w', r) ->
        In (us, ok) (issued w w') -> 1 <= length us <= 100).
Proof.
  intros Hrun.
  apply score_loop_spec in Hrun as (bs & fl & rest & _ & _ & _ & _ & _ & _ & Hlt & _);
    [|simpl; unfold batch_size; lia].
  unfold batch_size in Hlt. split; [done|]. split; [|split].
  - intros b a i w2 st2. unfold score.
    destruct (political _) as [p|]; [|done].
    unfold mbind, M_bind. cbn [print mret M_ret]. intros [= _ <-].
    cbn [updates]. rewrite length_app. simpl. lia.
  - intros st2 w2 w3 st3 Hfull. unfold flush_full.
    rewrite bool_decide_eq_true_2 by (unfold batch_size; lia).
    unfold mbind, M_bind. destruct (DB_bulk_query _ _ _ _) as [w4 [ex|[]]]; [done|].
    by intros [= _ <-].
  - intros post w' r us ok Hall Hin.
    apply run_loop_spec in Hall as (bs' & fl' & rest' & Hlog & _ & Hshape & _).
    apply issued_app in Hlog. rewrite Hlog in Hin. apply in_issued in Hin.
    apply (batches_shape_bounds (bs' ++ fl') us Hshape).
    apply in_or_app. tauto.
Qed.

Lemma loop_body_skip e cs len st a w :
  cs !! ad_lang a = None ->
  loop_body e cs len st (AdRow a) w = (w, inr (mkLoop (idx st + 1) (updates st))).
Proof.
  intros Hnone. unfold loop_body. cbn [row_ad]. unfold mbind, M_bind.
  cbn [mret M_ret]. by rewrite Hnone.
Qed.


(** ** The last line before a refused write *)

Lemma score_loop_last_line e cs len records : forall st w w' r,
  score_loop e cs len records st w = (w', r) ->
  announces len (updates st) (stdout w) ->
  match r with
  | inr st' => announces len (updates st') (stdout w')
  | inl WriteError =>
      exists b, last (bulk_log w') = Some (b, false) /\ announces len b (stdout w')
                /\ b <> []
  | inl _ => True
  end.
Proof.
  induction records as [|row records IH]; intros st w w' r Hrun Hinv.
  { by injection Hrun as <- <-. }
  rewrite score_loop_cons in Hrun.
  pose proof (loop_body_step e cs len st w row) as Hs.
  remember (loop_body e cs len st row w) as res eqn:Eres. clear Eres.
  destruct Hs as [n|a Hn|a b Hb Hp|a b p Hb Hp Hlen|a b p Hb Hp Hlen Hf|a b p Hb Hp Hlen Hf].
  - by injection Hrun as <- <-.
  - by apply IH in Hrun.
  - by injection Hrun as <- <-.
  - apply IH in Hrun; [done|]. simpl. intros u. rewrite !last_snoc.
    intros [= <-]. by eexists.
  - apply IH in Hrun; [done|]. by intros u.
  - injection Hrun as <- <-. eexists. simpl. rewrite last_snoc. split; [done|].
    split; [|by destruct (updates st)].
    intros u. rewrite !last_snoc. intros [= <-]. by eexists.
Qed.

Lemma run_loop_last_line e cs len records w w' :
  run_loop e cs len records w = (w', inl WriteError) ->
  exists b, last (bulk_log w') = Some (b, false) /\ announces len b (stdout w').
Proof.
  rewrite run_loop_eq.
  destruct (score_loop e cs len records (mkLoop 0 []) w) as [w1 r1] eqn:Hloop.
  apply score_loop_last_line in Hloop; [|by intros u].
  destruct r1 as [ex|st].
  - intros [= <- ->]. destruct Hloop as (b & ? & ? & _). by exists b.
  - rewrite flush_rest_eq. destruct (updates st) as [|u us] eqn:Hus; [done|].
    destruct (bulk_fails e _); [|done].
    intros [= <-]. exists (u :: us). simpl. rewrite last_snoc. by split.
Qed.

(** C7: when a bulk write of a run is refused, the run ends with that
    failure as its result.  The refused write is the last entry of the log
    (no retry, no later write); the writes before it were all committed and
    the table is the old one with exactly their updates applied, the refused
    batch being absent; and the last line on the console is the progress
    line of the last update of the refused batch, so no record was scored
    afterwards. *)
Theorem refused_write_aborts e newest lang w w' r b :
  classify e newest lang w = (w', r) ->
  In (b, false) (issued w w') ->
  r = inl WriteError
  /\ exists bs,
       issued w w' = ((fun c => (c, true)) <$> bs) ++ [(b, false)]
       /\ table w' = SQL.apply_updates (concat bs) (table w)
       /\ bulk_fails e (length (bulk_log w) + length bs) = true
       /\ exists u i n,
            last b = Some u
            /\ last (stdout w') = Some (Classified (upd_id u) i n (probability u)).
Proof.
  rewrite classify_eq. cbv zeta.
  destruct (selection newest lang) as [wc|].
  2:{ intros [= <- <-]. unfold issued. simpl. by rewrite drop_all. }
  destruct (load_classifiers e (confs e) ∅) as [ex|cs].
  { intros [= <- <-]. unfold issued. simpl. by rewrite drop_all. }
  intros Hrun Hin.
  destruct (run_loop_spec _ _ _ _ _ _ _ Hrun)
    as (bs & fl & rest & Hlog & Htab & Hshape & Hcat & Hr).
  pose proof (issued_app w w' _ Hlog) as Hiss. rewrite Hiss in Hin.
  apply in_issued in Hin as [[? _]|[_ Hin]]; [done|].
  assert (Hex : r = inl WriteError).
  { destruct r as [ex|[]].
    - destruct ex; try done; destruct Hr as [_ Hr]; rewrite Hr in Hin; done.
    - destruct Hr as [-> _]. done. }
  subst r. split; [done|]. destruct Hr as [Hr _].
  destruct (Hr eq_refl) as (b' & -> & Hf). destruct Hin as [<-|[]].
  exists bs. repeat split; auto.
  destruct (run_loop_last_line _ _ _ _ _ _ Hrun) as (b0 & Hlast & Hann).
  rewrite Hlog, app_assoc in Hlast. simpl in Hlast. rewrite last_snoc in Hlast.
  injection Hlast as <-.
  assert (Hshape' : 1 <= length b' <= batch_size).
  { apply (batches_shape_bounds _ _ Hshape). apply in_or_app. right. by left. }
  destruct (last b') as [u|] eqn:Hu.
  - destruct (Hann u Hu) as [i Hi]. exists u, i. eexists. by split.
  - apply last_None in Hu. subst b'. simpl in Hshape'. lia.
Qed.

(** C4: every update of every bulk write of a run comes from a record of
    the stream scored with the bundle of its language, and its probability
    is the entry at row 0, column 1 of what [predict_proba] returned on the
    vectorized text of that record, passed on as it is: equal to that entry,
    and so within [0,1] whenever the entries of the matrix are. *)
Theorem probability_is_political_column e cs len records w w' r us ok u :
  run_loop e cs len records w = (w', r) ->
  In (us, ok) (issued w w') ->
  In u us ->
  exists a b row0 rows,
    In (AdRow a) records
    /\ cs !! ad_lang a = Some b
    /\ upd_id u = ad_id a
    /\ predict_proba b (transform b [get_text e (ad_html a)]) = row0 :: rows
    /\ nth_error row0 1 = Some (probability u)
    /\ ((forall q, In q row0 -> (0 <= q <= 1)%Q) -> (0 <= probability u <= 1)%Q).
Proof.
  intros Hrun Hin Hu.
  destruct (run_loop_spec _ _ _ _ _ _ _ Hrun)
    as (bs & fl & rest & Hlog & _ & _ & Hcat & _).
  rewrite (issued_app w w' _ Hlog) in Hin. apply in_issued in Hin.
  assert (Hus : In us (bs ++ fl)) by (apply in_or_app; tauto).
  assert (Hsc : In u (flat_map (scored e cs) records)).
  { rewrite <- Hcat. apply in_or_app. left. apply in_concat. eauto. }
  apply in_flat_map in Hsc as (row & Hrow & Hscored).
  destruct row as [a|n]; [|done]. simpl in Hscored.
  destruct (cs !! ad_lang a) as [b|] eqn:Hb; [|done].
  destruct (score_value e b a) as [p|] eqn:Hp; [|done].
  destruct Hscored as [<-|[]]. unfold score_value, political in Hp.
  destruct (predict_proba b _) as [|row0 rows] eqn:Hm; [done|].
  exists a, b, row0, rows. split_and!; auto.
  intros Hrange. apply nth_error_In in Hp. by apply Hrange.
Qed.

(** ** A language filter without quotes *)

Lemma append_nil_r (s : string) : s +:+ "" = s.
Proof. induction s as [|c s IH]; [done|]. by rewrite append_cons, IH. Qed.

Lemma append_assoc (a b c : string) : (a +:+ b) +:+ c = a +:+ (b +:+ c).
Proof. induction a as [|x a IH]; [done|]. by rewrite !append_cons, IH. Qed.

Lemma lex_plain_literal l : forall acc,
  plain l = true ->
  SQL.lex_run (SQL.InStr acc) (l +:+ "'") = (SQL.InStrQuote (acc +:+ l), []).
Proof.
  induction l as [|c l IH]; intros acc Hl.
  - by rewrite append_nil, append_nil_r.
  - simpl in Hl. apply andb_prop in Hl as [Hc Hl]. apply negb_true_iff in Hc.
    rewrite append_cons. cbn [SQL.lex_run SQL.lex_step]. rewrite Hc.
    rewrite (IH _ Hl). unfold SQL.snoc. by rewrite append_assoc.
Qed.

Lemma selection_plain newest c l :
  plain (String c l) = true ->
  selection newest (Some (String c l)) =
  Some (if newest
        then [[SQL.EqNum (SQL.OCol SQL.CProb) (SQL.ONum 0);
               SQL.EqText (SQL.OCol SQL.CLang) (SQL.OText (String c l))]]
        else [[SQL.EqText (SQL.OCol SQL.CLang) (SQL.OText (String c l))]]).
Proof.
  intros Hl. unfold selection, SQL.tokenize.
  destruct newest.
  - change (build_query true (Some (String c l)))
      with ("select * from ads where political_probability = 0 and lang = '"
            +:+ (String c l +:+ "'")).
    rewrite lex_run_app.
    change (SQL.lex_run SQL.Idle
              "select * from ads where political_probability = 0 and lang = '")
      with (SQL.InStr "",
            [SQL.TWord "select"; SQL.TSym "*"; SQL.TWord "from"; SQL.TWord "ads";
             SQL.TWord "where"; SQL.TWord "political_probability"; SQL.TSym "=";
             SQL.TWord "0"; SQL.TWord "and"; SQL.TWord "lang"; SQL.TSym "="]).
    cbn [fst snd]. by rewrite (lex_plain_literal _ _ Hl).
  - change (build_query false (Some (String c l)))
      with ("select * from ads where lang = '" +:+ (String c l +:+ "'")).
    rewrite lex_run_app.
    change (SQL.lex_run SQL.Idle "select * from ads where lang = '")
      with (SQL.InStr "",
            [SQL.TWord "select"; SQL.TSym "*"; SQL.TWord "from"; SQL.TWord "ads";
             SQL.TWord "where"; SQL.TWord "lang"; SQL.TSym "="]).
    cbn [fst snd]. by rewrite (lex_plain_literal _ _ Hl).
Qed.

(** For a filter without quotes the storage reads the query as meant. *)
Lemma selection_wanted newest lang :
  plain_filter lang = true ->
  exists wc, selection newest lang = Some wc
             /\ forall a, SQL.eval_where wc a = wanted newest lang a.
Proof.
  intros Hl. destruct lang as [[|c l]|].
  - change (selection newest (Some "")) with (selection newest None).
    rewrite selection_no_lang. eexists. split; [done|].
    intros a. unfold wanted. destruct newest; simpl; [|done].
    by rewrite orb_false_r, !andb_true_r.
  - rewrite (selection_plain _ _ _ Hl). eexists. split; [done|].
    intros a. unfold wanted. destruct newest; simpl;
      by rewrite orb_false_r, !andb_true_r.
  - rewrite selection_no_lang. eexists. split; [done|].
    intros a. unfold wanted. destruct newest; simpl; [|done].
    by rewrite orb_false_r, !andb_true_r.
Qed.

(** With a language filter without quotes, the stream holds the wanted
    records and no other: unscored ones only in mode [newest], and of the
    language of the filter only. *)
Lemma plain_filter_stream newest lang t :
  plain_filter lang = true ->
  SQL.query (build_query newest lang) t = Some (AdRow <$> List.filter (wanted newest lang) t).
Proof.
  intros Hl. destruct (selection_wanted newest lang Hl) as (wc & Hsel & Hw).
  rewrite query_build_query, Hsel. do 2 f_equal. by apply filter_ext.
Qed.

(** C3, at a filter that carries a quote: the text of the filter is pasted
    into the query between quotes and read back by the storage as part of
    the statement.  In mode [newest], with the filter
    [en-US' or 'a' = 'a], the stream is the whole table: it holds an ad of
    another language, and one that is not unscored, and the run scores and
    overwrites them. *)
Theorem quoted_filter_reads_everything :
  build_query true (Some quoted_filter)
  = "select * from ads where political_probability = 0 and lang = 'en-US' or 'a' = 'a'"
  /\ SQL.query (build_query true (Some quoted_filter)) demo_table
     = Some (AdRow <$> demo_table)
  /\ In (demo_ad "a2" "de-DE" (1 # 2)) demo_table
  /\ wanted true (Some quoted_filter) (demo_ad "a2" "de-DE" (1 # 2)) = false
  /\ classify demo_env true (Some quoted_filter) demo_world
     = (demo_quoted_once, inr tt)
  /\ In (demo_ad "a2" "de-DE" (3 # 4)) (table demo_quoted_once).
Proof. repeat split; vm_compute; tauto. Qed.

(** ** Updates, row by row *)

Lemma apply_updates_upd us : forall t, SQL.apply_updates us t = upd us <$> t.
Proof.
  unfold SQL.apply_updates, upd.
  induction us as [|u us IH]; intros t; simpl.
  - by rewrite list_fmap_id.
  - by rewrite IH, <- list_fmap_compose.
Qed.

Lemma upd_snoc us u a : upd (us ++ [u]) a = SQL.set_probability u (upd us a).
Proof. unfold upd. by rewrite fold_left_app. Qed.

Lemma set_probability_fields u a :
  ad_id (SQL.set_probability u a) = ad_id a
  /\ ad_lang (SQL.set_probability u a) = ad_lang a
  /\ ad_html (SQL.set_probability u a) = ad_html a.
Proof. unfold SQL.set_probability. by destruct (String.eqb _ _). Qed.

Lemma upd_fields us a :
  ad_id (upd us a) = ad_id a /\ ad_lang (upd us a) = ad_lang a
  /\ ad_html (upd us a) = ad_html a.
Proof.
  induction us as [|u us IH] using rev_ind; [done|].
  rewrite upd_snoc. destruct (set_probability_fields u (upd us a)) as (-> & -> & ->).
  done.
Qed.

Lemma upd_other us a :
  (forall u, In u us -> upd_id u <> ad_id a) -> upd us a = a.
Proof.
  induction us as [|u us IH] using rev_ind; intros Hne; [done|].
  rewrite upd_snoc, IH by (intros; apply Hne, in_or_app; by left).
  unfold SQL.set_probability.
  destruct (String.eqb_spec (ad_id a) (upd_id u)) as [Heq|]; [|done].
  destruct (Hne u); [|done]. apply in_or_app. right. by left.
Qed.

Lemma upd_hit us a u :
  In u us -> upd_id u = ad_id a ->
  exists u', In u' us /\ political_probability (upd us a) = probability u'.
Proof.
  revert u. induction us as [|v us IH] using rev_ind; intros u Hin Hid; [done|].
  rewrite upd_snoc. unfold SQL.set_probability.
  destruct (upd_fields us a) as (-> & _ & _).
  destruct (String.eqb_spec (ad_id a) (upd_id v)) as [Heq|Hne].
  - exists v. split; [|done]. apply in_or_app. right. by left.
  - apply in_app_or in Hin as [Hin|[<-|[]]]; [|congruence].
    destruct (IH u Hin Hid) as (u' & Hu' & Hp).
    exists u'. split; [|done]. apply in_or_app. by left.
Qed.

Lemma same_id_same_ad (t : list Ad) a a' :
  NoDup (ad_id <$> t) -> In a t -> In a' t -> ad_id a = ad_id a' -> a = a'.
Proof.
  induction t as [|x t IH]; [done|].
  rewrite fmap_cons, NoDup_cons. intros [Hx Ht] [->|Ha] [->|Ha'] Hid; auto.
  - destruct Hx. rewrite Hid. apply list_elem_of_In, in_map, Ha'.
  - destruct Hx. rewrite <- Hid. apply list_elem_of_In, in_map, Ha.
Qed.

(** Where identifiers are unique, a run leaves an ad whose language has no
    bundle as it found it. *)
Lemma skipped_ad_kept e cs newest lang w w' r a :
  load_classifiers e (confs e) ∅ = inr cs ->
  cs !! ad_lang a = None ->
  NoDup (ad_id <$> table w) -> In a (table w) ->
  classify e newest lang w = (w', r) ->
  In a (table w').
Proof.
  intros Hload Hnone Hnodup Ha. rewrite classify_eq, Hload. cbv zeta.
  destruct (selection newest lang) as [wc|]; [|by intros [= <- _]].
  intros Hrun.
  destruct (run_loop_spec _ _ _ _ _ _ _ Hrun)
    as (bs & fl & rest & _ & Htab & _ & Hcat & _).
  cbn [say table] in Htab. rewrite Htab, apply_updates_upd.
  apply in_map_iff. exists a. split; [|done].
  apply upd_other. intros u Hu Hid.
  assert (Hsc : In u (flat_map (scored e cs)
                        (AdRow <$> List.filter (SQL.eval_where wc) (table w)))).
  { rewrite <- Hcat, concat_app, <- app_assoc. apply in_or_app. by left. }
  apply in_flat_map in Hsc as (row & Hrow & Hscored).
  apply in_map_iff in Hrow as (a' & <- & Ha').
  apply filter_In in Ha' as [Ha' _]. simpl in Hscored.
  destruct (cs !! ad_lang a') as [b|] eqn:Hb; [|done].
  destruct (score_value e b a') as [p|]; [|done].
  destruct Hscored as [<-|[]]. simpl in Hid.
  assert (a' = a) as -> by (by eapply same_id_same_ad).
  congruence.
Qed.

(** C2: a record whose language has no bundle in the registry goes through
    the body of the loop without an exception and changes nothing but the
    index, which grows by one: the buffer is as before (no update), and the
    world is as before (no progress line, no write, the table and so the
    stored probability untouched).  It yields no update and is not counted
    as scoreable; and where the identifiers of the table are unique, a whole
    run with that registry, however it ends, leaves the ad in the table as
    it was. *)
Theorem unsupported_language_is_skipped e cs len st a w :
  cs !! ad_lang a = None ->
  loop_body e cs len st (AdRow a) w = (w, inr (mkLoop (idx st + 1) (updates st)))
  /\ scored e cs (AdRow a) = []
  /\ scoreable cs (AdRow a) = false
  /\ (forall newest lang w0 w' r,
        load_classifiers e (confs e) ∅ = inr cs ->
        NoDup (ad_id <$> table w0) -> In a (table w0) ->
        classify e newest lang w0 = (w', r) ->
        In a (table w')).
Proof.
  intros Hnone. split; [|split; [|split]].
  - by apply loop_body_skip.
  - by apply scored_skip.
  - by apply scoreable_skip.
  - intros newest lang w0 w' r Hload Hnodup Ha Hrun. by eapply skipped_ad_kept.
Qed.

(** ** Streams without a scoreable record, and runs that ended well *)

Lemma score_loop_skips e cs len records : forall st w,
  (forall row, In row records -> exists a, row = AdRow a /\ cs !! ad_lang a = None) ->
  score_loop e cs len records st w
  = (w, inr (mkLoop (idx st + length records) (updates st))).
Proof.
  induction records as [|row records IH]; intros st w Hskip.
  - simpl. rewrite Nat.add_0_r. by destruct st.
  - destruct (Hskip row (or_introl eq_refl)) as (a & -> & Hnone).
    rewrite score_loop_cons.
    rewrite (loop_body_skip e cs len st a w Hnone).
    rewrite IH by (intros; apply Hskip; by right).
    simpl. do 3 f_equal. lia.
Qed.

Lemma score_loop_scores e cs len records : forall st w w' st',
  score_loop e cs len records st w = (w', inr st') ->
  forall a b, In (AdRow a) records -> cs !! ad_lang a = Some b ->
              is_Some (score_value e b a).
Proof.
  induction records as [|row records IH]; intros st w w' st' Hrun a0 b0 Hin Hb0; [done|].
  rewrite score_loop_cons in Hrun.
  pose proof (loop_body_step e cs len st w row) as Hs.
  remember (loop_body e cs len st row w) as res eqn:Eres. clear Eres.
  destruct Hs as [n|a Hn|a b Hb Hp|a b p Hb Hp Hlen|a b p Hb Hp Hlen Hf|a b p Hb Hp Hlen Hf];
    try done;
    (destruct Hin as [[= ->]|Hin]; [|by eapply IH]); try congruence;
    assert (b0 = b) as -> by congruence; by eexists.
Qed.

Lemma run_loop_scores e cs len records w w' :
  run_loop e cs len records w = (w', inr tt) ->
  forall a b, In (AdRow a) records -> cs !! ad_lang a = Some b ->
              is_Some (score_value e b a).
Proof.
  rewrite run_loop_eq.
  destruct (score_loop e cs len records (mkLoop 0 []) w) as [w1 [ex|st]] eqn:Hloop;
    [done|].
  intros _. by eapply score_loop_scores.
Qed.

Lemma run_loop_skips e cs len records w :
  (forall row, In row records -> exists a, row = AdRow a /\ cs !! ad_lang a = None) ->
  run_loop e cs len records w = (w, inr tt).
Proof.
  intros Hskip. by rewrite run_loop_eq, score_loop_skips, flush_rest_eq.
Qed.

Lemma update_for (us : list Update) (i : string) :
  (exists u, In u us /\ upd_id u = i) \/ (forall u, In u us -> upd_id u <> i).
Proof.
  induction us as [|v us [(u & Hu & Hi)|Hno]].
  - by right.
  - left. exists u. split; [by right|done].
  - destruct (String.eqb_spec (upd_id v) i) as [Heq|Hne].
    + left. exists v. split; [by left|done].
    + right. intros u [<-|Hu]; [done|by apply Hno].
Qed.

(** ** Running twice *)

(** X11: in mode [newest], with a language filter free of quotes (or none),
    after a run that ended well and wrote no probability equal to the
    sentinel 0, a second run ends well too and finds nothing to score: it
    prints its two opening lines and no progress line, issues no bulk write,
    and leaves the table, and so every stored probability, as the first run
    left it. *)
Lemma newest_is_idempotent e lang w0 w1 :
  plain_filter lang = true ->
  classify e true lang w0 = (w1, inr tt) ->
  (forall us ok u, In (us, ok) (issued w0 w1) -> In u us ->
                   Qeq_bool (probability u) 0 = false) ->
  exists w2 n,
    classify e true lang w1 = (w2, inr tt)
    /\ table w2 = table w1
    /\ issued w1 w2 = []
    /\ stdout w2 = stdout w1 ++ [RunningNewest; Found n].
Proof.
  intros Hl Hrun Hnz.
  destruct (selection_wanted true lang Hl) as (wc & Hsel & Hw).
  rewrite classify_eq, Hsel in Hrun. cbv zeta in Hrun.
  rewrite classify_eq, Hsel. cbv zeta.
  destruct (load_classifiers e (confs e) ∅) as [ex|cs]; [done|].
  destruct (run_loop_spec _ _ _ _ _ _ _ Hrun)
    as (bs & fl & rest & Hlog & Htab & _ & Hcat & -> & -> & _).
  rewrite !app_nil_r in *. cbn [say table] in Htab.
  pose proof (issued_app w0 w1 _ Hlog) as Hiss.
  rewrite apply_updates_upd in Htab.
  assert (Hskip : forall row,
             In row (AdRow <$> List.filter (SQL.eval_where wc) (table w1)) ->
             exists a, row = AdRow a /\ cs !! ad_lang a = None).
  { intros row Hrow. apply in_map_iff in Hrow as (a' & <- & Ha').
    exists a'. split; [done|].
    apply filter_In in Ha' as [Ha' Hsel'].
    rewrite Htab in Ha'. apply in_map_iff in Ha' as (a & <- & Ha).
    rewrite Hw in Hsel'. unfold wanted in Hsel'.
    apply andb_prop in Hsel' as [Hzero Hlang].
    destruct (upd_fields (concat bs) a) as (_ & Hl' & _). rewrite Hl' in *.
    destruct (update_for (concat bs) (ad_id a)) as [(u & Hu & Hi)|Hno].
    - destruct (upd_hit _ _ _ Hu Hi) as (u' & Hu' & Hp).
      unfold unscored in Hzero. rewrite Hp in Hzero.
      apply in_concat in Hu' as (us & Hus & Hu').
      rewrite (Hnz us true u') in Hzero; [done| |done].
      rewrite Hiss. apply in_map_iff. by exists us.
    - rewrite (upd_other _ _ Hno) in Hzero.
      destruct (cs !! ad_lang a) as [b|] eqn:Hb; [|done].
      assert (Hin : In (AdRow a) (AdRow <$> List.filter (SQL.eval_where wc) (table w0))).
      { apply in_map, filter_In. split; [done|].
        rewrite Hw. unfold wanted. by rewrite Hzero, Hlang. }
      destruct (run_loop_scores _ _ _ _ _ _ Hrun a b Hin Hb) as [p Hp].
      destruct (Hno (mkUpdate (ad_id a) p)); [|done].
      rewrite Hcat. apply in_flat_map. exists (AdRow a). split; [done|].
      rewrite (scored_some _ _ _ _ _ Hb Hp). by left. }
  rewrite (run_loop_skips _ _ _ _ _ Hskip).
  eexists _, _. split; [done|]. repeat split.
  - unfold issued. simpl. by rewrite drop_all.
  - simpl. by rewrite <- app_assoc.
Qed.

(** ** The statements at work *)

(** Scores checked by computation. *)
Lemma scores_checked e cs records :
  forallb (fun row => implb (scoreable cs row)
                            (bool_decide (scored e cs row <> []))) records = true ->
  forall a b, In (AdRow a) records -> cs !! ad_lang a = Some b ->
              is_Some (score_value e b a).
Proof.
  intros Hall a b Hin Hb. rewrite forallb_forall in Hall.
  specialize (Hall _ Hin). rewrite (scoreable_some _ _ _ Hb) in Hall.
  apply bool_decide_eq_true in Hall. simpl in Hall. rewrite Hb in Hall.
  destruct (score_value e b a); [by eexists|done].
Qed.

(** The scenario of the spec: 250 unscored English ads, three bulk writes
    of 100, 100 and 50 updates. *)
Lemma bulk_writes_of_250_ads :
  SQL.query (build_query true (Some "en-US")) (table demo_many_world)
  = Some (AdRow <$> demo_many)
  /\ load_classifiers demo_env (confs demo_env) ∅ = inr demo_registry
  /\ exists w', classify demo_env true (Some "en-US") demo_many_world = (w', inr tt)
                /\ sizes demo_many_world w' = [100; 100; 50].
Proof.
  assert (H1 : SQL.query (build_query true (Some "en-US")) (table demo_many_world)
               = Some (AdRow <$> demo_many)) by (vm_compute; reflexivity).
  assert (H2 : load_classifiers demo_env (confs demo_env) ∅ = inr demo_registry)
    by reflexivity.
  split; [exact H1|]. split; [exact H2|].
  destruct (bulk_writes_of_a_run demo_env true (Some "en-US") demo_many_world
              demo_registry (AdRow <$> demo_many) H1 H2)
    as (w' & Hrun & _ & Hsizes & _).
  - intros k. reflexivity.
  - apply scores_checked. vm_compute. reflexivity.
  - exists w'. split; [exact Hrun|]. rewrite Hsizes. vm_compute. reflexivity.
Defined.

Lemma unsupported_language_is_skipped_demo :
  demo_registry !! ad_lang (demo_ad "a3" "xx" 0) = None
  /\ loop_body demo_env demo_registry 4 (mkLoop 2 []) (AdRow (demo_ad "a3" "xx" 0)) demo_world
     = (demo_world, inr (mkLoop 3 [])).
Proof.
  assert (H : demo_registry !! ad_lang (demo_ad "a3" "xx" 0) = None)
    by (vm_compute; reflexivity).
  split; [exact H|].
  exact (proj1 (unsupported_language_is_skipped demo_env demo_registry 4 (mkLoop 2 [])
                  (demo_ad "a3" "xx" 0) demo_world H)).
Defined.

Lemma newest_is_idempotent_demo :
  classify demo_env true None demo_world = (demo_after, inr tt)
  /\ exists w2 n, classify demo_env true None demo_after = (w2, inr tt)
                  /\ table w2 = table demo_after
                  /\ issued demo_after w2 = []
                  /\ stdout w2 = stdout demo_after ++ [RunningNewest; Found n].
Proof.
  assert (H : classify demo_env true None demo_world = (demo_after, inr tt))
    by (vm_compute; reflexivity).
  split; [exact H|].
  apply (newest_is_idempotent demo_env None demo_world demo_after).
  - reflexivity.
  - exact H.
  - intros us ok u Hin Hu. vm_compute in Hin.
    destruct Hin as [Hin|[]]. injection Hin as <- <-.
    destruct Hu as [<-|[]]. reflexivity.
Defined.

Lemma refused_write_aborts_demo :
  classify demo_refusing_env true None demo_world = (demo_refused, inl WriteError)
  /\ table demo_refused = table demo_world.
Proof.
  assert (H : classify demo_refusing_env true None demo_world
              = (demo_refused, inl WriteError)) by (vm_compute; reflexivity).
  split; [exact H|].
  destruct (refused_write_aborts demo_refusing_env true None demo_world demo_refused
              (inl WriteError) [mkUpdate "a1" (3 # 4)] H)
    as (_ & bs & Hiss & Htab & _).
  - vm_compute. left. reflexivity.
  - destruct bs as [|b bs]; [exact Htab|].
    vm_compute in Hiss. discriminate Hiss.
Defined.

Lemma all_bundles_or_no_run_demo :
  (In ("de-DE", mkConf "de-DE" "") (confs demo_broken_env)
   /\ load_classifier demo_broken_env "de-DE" = None
   /\ load_classifiers demo_broken_env (confs demo_broken_env) ∅ = inl LoadError)
  /\ (load_classifiers demo_env (confs demo_env) ∅ = inr demo_registry
      /\ exists d' c' f v,
           In (d', c') (confs demo_env) /\ language c' = "de-DE"
           /\ load_classifier demo_env d' = Some f /\ get_vectorizer demo_env c' = Some v
           /\ demo_registry !! "de-DE" = Some (mkBundle f v)).
Proof.
  assert (H1 : In ("de-DE", mkConf "de-DE" "") (confs demo_broken_env))
    by (right; left; reflexivity).
  assert (H2 : load_classifier demo_broken_env "de-DE" = None) by reflexivity.
  assert (H3 : load_classifiers demo_env (confs demo_env) ∅ = inr demo_registry)
    by reflexivity.
  assert (H4 : In ("de-DE", mkConf "de-DE" "") (confs demo_env))
    by (right; left; reflexivity).
  split.
  - split; [exact H1|]. split; [exact H2|].
    exact (proj1 (proj1 (all_bundles_or_no_run demo_broken_env true None demo_world)
                    "de-DE" (mkConf "de-DE" "") H1 (or_introl H2))).
  - split; [exact H3|].
    exact (proj2 (proj2 (proj1 (proj2 (all_bundles_or_no_run demo_env true None
                                         demo_world))
                           demo_registry H3 "de-DE" (mkConf "de-DE" "") H4))).
Defined.

Lemma buffer_is_bounded_demo :
  score_loop demo_env demo_registry 4 (AdRow <$> take 2 demo_table) (mkLoop 0 []) demo_world
  = (mkWorld demo_table [Classified "a1" 1 4 (3 # 4); Classified "a2" 2 4 (3 # 4)] [],
     inr (mkLoop 2 [mkUpdate "a1" (3 # 4); mkUpdate "a2" (3 # 4)]))
  /\ length [mkUpdate "a1" (3 # 4); mkUpdate "a2" (3 # 4)] < 100.
Proof.
  assert (H : score_loop demo_env demo_registry 4 (AdRow <$> take 2 demo_table)
                (mkLoop 0 []) demo_world
              = (mkWorld demo_table
                   [Classified "a1" 1 4 (3 # 4); Classified "a2" 2 4 (3 # 4)] [],
                 inr (mkLoop 2 [mkUpdate "a1" (3 # 4); mkUpdate "a2" (3 # 4)])))
    by (vm_compute; reflexivity).
  split; [exact H|].
  exact (proj1 (buffer_is_bounded demo_env demo_registry 4 _ _ _ _ H)).
Defined.

Lemma probability_is_political_column_demo :
  run_loop demo_env demo_registry 2 (AdRow <$> List.filter unscored demo_table)
    (say (Found 2) (say RunningNewest demo_world))
  = (demo_after, inr tt)
  /\ exists row0, nth_error row0 1 = Some (3 # 4)%Q.
Proof.
  assert (H : run_loop demo_env demo_registry 2 (AdRow <$> List.filter unscored demo_table)
                (say (Found 2) (say RunningNewest demo_world))
              = (demo_after, inr tt)) by (vm_compute; reflexivity).
  split; [exact H|].
  destruct (probability_is_political_column demo_env demo_registry 2 _ _ _ _
              [mkUpdate "a1" (3 # 4)] true (mkUpdate "a1" (3 # 4)) H)
    as (a & b & row0 & rows & _ & _ & _ & _ & Hp & _).
  - vm_compute. left. reflexivity.
  - left. reflexivity.
  - exists row0. exact Hp.
Defined.

(** C5, at a filter that carries a quote: two runs in mode [newest] with
    the filter [en-US' or 'a' = 'a].  The first run ends well and writes no
    probability equal to 0; yet the query of the second run, being read as
    a disjunction, selects the whole table again, and the second run scores
    three records anew and issues a bulk write of three updates. *)
Theorem quoted_filter_is_scored_twice :
  classify demo_env true (Some quoted_filter) demo_world = (demo_quoted_once, inr tt)
  /\ Forall (fun c => Forall (fun u => Qeq_bool (probability u) 0 = false) c.1)
            (issued demo_world demo_quoted_once)
  /\ classify demo_env true (Some quoted_filter) demo_quoted_once
     = (demo_quoted_twice, inr tt)
  /\ sizes demo_quoted_once demo_quoted_twice = [3]
  /\ plain_filter (Some quoted_filter) = false.
Proof.
  repeat split; try (vm_compute; reflexivity).
  vm_compute. repeat constructor.
Qed.

(** * Further properties of the command *)

(** ** The registry, key by key *)

Lemma load_classifiers_app e cs1 cs2 acc :
  load_classifiers e (cs1 ++ cs2) acc =
  match load_classifiers e cs1 acc with
  | inr m => load_classifiers e cs2 m
  | inl ex => inl ex
  end.
Proof.
  revert acc. induction cs1 as [|[d c] cs1 IH]; intros acc; [done|].
  simpl. destruct (load_classifier e d); [|done].
  destruct (get_vectorizer e c); [|done]. apply IH.
Qed.

Lemma load_classifiers_other e cs k : forall acc m,
  load_classifiers e cs acc = inr m ->
  (forall d c, In (d, c) cs -> language c <> k) ->
  m !! k = acc !! k.
Proof.
  induction cs as [|[d c] cs IH]; intros acc m Hload Hk; simpl in Hload.
  { by injection Hload as <-. }
  destruct (load_classifier e d); [|done].
  destruct (get_vectorizer e c); [|done].
  rewrite (IH _ _ Hload) by (intros; eapply Hk; by right).
  apply lookup_insert_ne. eapply Hk. by left.
Qed.

Lemma load_classifiers_keys e cs : forall acc m,
  load_classifiers e cs acc = inr m ->
  forall k, is_Some (m !! k)
            <-> is_Some (acc !! k) \/ exists d c, In (d, c) cs /\ language c = k.
Proof.
  induction cs as [|[d c] cs IH]; intros acc m Hload k; simpl in Hload.
  { injection Hload as <-. split; [by left|]. by intros [?|(? & ? & [] & _)]. }
  destruct (load_classifier e d); [|done].
  destruct (get_vectorizer e c); [|done].
  rewrite (IH _ _ Hload k), lookup_insert. split.
  - intros [Hk|(d' & c' & Hin & Hl)].
    + case_decide as Heq; [|by left]. right. exists d, c. split; [by left|done].
    + right. exists d', c'. split; [by right|done].
  - intros [Hk|(d' & c' & [[= <- <-]|Hin] & Hl)].
    + left. case_decide; [by eexists|done].
    + left. rewrite decide_True by done. by eexists.
    + right. by exists d', c'.
Qed.

(** X1: the registry is a dictionary assigned key by key (line 34): when
    two confs name the same language, the bundle of the later one replaces
    the bundle of the earlier one, and it is the one records of that
    language are scored with. *)
Theorem later_conf_replaces_earlier e cs1 d c cs2 m :
  confs e = cs1 ++ (d, c) :: cs2 ->
  (forall d' c', In (d', c') cs2 -> language c' <> language c) ->
  load_classifiers e (confs e) ∅ = inr m ->
  exists f v,
    load_classifier e d = Some f /\ get_vectorizer e c = Some v
    /\ m !! language c = Some (mkBundle f v).
Proof.
  intros -> Hlast. rewrite load_classifiers_app.
  destruct (load_classifiers e cs1 ∅) as [ex|m1]; [done|]. simpl.
  destruct (load_classifier e d) as [f|]; [|done].
  destruct (get_vectorizer e c) as [v|]; [|done].
  intros Hload. exists f, v. split; [done|]. split; [done|].
  rewrite (load_classifiers_other _ _ _ _ _ Hload Hlast).
  apply lookup_insert_eq.
Qed.

Lemma later_conf_replaces_earlier_demo :
  load_classifiers demo_twice_env (confs demo_twice_env) ∅ = inr demo_twice_registry
  /\ exists f v, load_classifier demo_twice_env "new" = Some f
                 /\ get_vectorizer demo_twice_env (mkConf "en-US" "v2") = Some v
                 /\ demo_twice_registry !! "en-US" = Some (mkBundle f v).
Proof.
  assert (H : load_classifiers demo_twice_env (confs demo_twice_env) ∅
              = inr demo_twice_registry) by reflexivity.
  split; [exact H|].
  apply (later_conf_replaces_earlier demo_twice_env
           [("old", mkConf "en-US" "v1")] "new" (mkConf "en-US" "v2") []
           demo_twice_registry).
  - reflexivity.
  - intros d' c' [].
  - exact H.
Defined.

(** X2: a registry that was built has a bundle for a language exactly when
    some conf names that language; so a record is scoreable exactly when its
    language is configured, and a record of any other language is skipped. *)
Theorem registry_holds_configured_languages e m a :
  load_classifiers e (confs e) ∅ = inr m ->
  (is_Some (m !! ad_lang a)
   <-> exists d c, In (d, c) (confs e) /\ language c = ad_lang a)
  /\ (scoreable m (AdRow a) = true
      <-> exists d c, In (d, c) (confs e) /\ language c = ad_lang a).
Proof.
  intros Hload.
  pose proof (load_classifiers_keys _ _ _ _ Hload (ad_lang a)) as Hk.
  assert (Hm : is_Some (m !! ad_lang a)
               <-> exists d c, In (d, c) (confs e) /\ language c = ad_lang a).
  { rewrite Hk. split; [|by right]. intros [[? Hempty]|?]; [|done].
    by rewrite lookup_empty in Hempty. }
  split; [done|]. rewrite <- Hm. simpl. apply bool_decide_eq_true.
Qed.

Lemma registry_holds_configured_languages_demo :
  load_classifiers demo_env (confs demo_env) ∅ = inr demo_registry
  /\ (scoreable demo_registry (AdRow (demo_ad "a3" "xx" 0)) = true
      <-> exists d c, In (d, c) (confs demo_env) /\ language c = "xx").
Proof.
  assert (H : load_classifiers demo_env (confs demo_env) ∅ = inr demo_registry)
    by reflexivity.
  split; [exact H|].
  exact (proj2 (registry_holds_configured_languages demo_env demo_registry
                  (demo_ad "a3" "xx" 0) H)).
Defined.

(** ** The console and the writes, record by record *)

Lemma printed_app w w' l : stdout w' = stdout w ++ l -> printed w w' = l.
Proof. unfold printed. intros ->. by rewrite drop_app_length. Qed.

Lemma announced_app l1 l2 : announced (l1 ++ l2) = announced l1 ++ announced l2.
Proof. unfold announced. by rewrite flat_map_app. Qed.

Lemma announced_progress e cs len records : forall i,
  announced (progress e cs len i records) = flat_map (scored e cs) records.
Proof.
  induction records as [|row records IH]; intros i; [done|].
  cbn [progress flat_map]. rewrite announced_app, IH. f_equal.
  destruct row as [a|n]; [|done]. simpl.
  destruct (cs !! ad_lang a) as [b|]; [|done].
  by destruct (score_value e b a).
Qed.

Lemma progress_app e cs len pre post : forall i,
  progress e cs len i (pre ++ post)
  = progress e cs len i pre ++ progress e cs len (i + length pre) post.
Proof.
  induction pre as [|row pre IH]; intros i; simpl.
  - by rewrite Nat.add_0_r.
  - rewrite IH, <- app_assoc. do 3 f_equal. lia.
Qed.

Lemma progress_bounds e cs len records : forall k i j n p,
  In (Classified i j n p) (progress e cs len k records) ->
  n = len /\ k < j <= k + length records.
Proof.
  induction records as [|row records IH]; intros k i j n p Hin; [done|].
  cbn [progress] in Hin. apply in_app_or in Hin as [Hin|Hin].
  - apply in_map_iff in Hin as (u & [= _ <- <- _] & _). simpl. split; [done|lia].
  - apply IH in Hin as [-> Hj]. simpl. split; [done|lia].
Qed.

(** How far a pass over [records] got: the records before the point where
    it ended were announced one by one, and their updates are in the writes
    issued and, for the rest, in the buffer. *)
Lemma score_loop_prefix e cs len records : forall st w w' r,
  score_loop e cs len records st w = (w', r) ->
  length (updates st) < batch_size ->
  exists pre post buf l,
    records = pre ++ post
    /\ stdout w' = stdout w ++ progress e cs len (idx st) pre
    /\ bulk_log w' = bulk_log w ++ l
    /\ updates st ++ flat_map (scored e cs) pre = concat (fst <$> l) ++ buf
    /\ length buf < batch_size
    /\ match r with
       | inr st' => post = [] /\ buf = updates st'
       | inl ex => ex = WriteError -> buf = []
       end.
Proof.
  induction records as [|row records IH]; intros st w w' r Hrun Hlt.
  { injection Hrun as <- <-. exists [], [], (updates st), []. simpl.
    by rewrite !app_nil_r. }
  rewrite score_loop_cons in Hrun.
  pose proof (loop_body_step e cs len st w row) as Hs.
  remember (loop_body e cs len st row w) as res eqn:Eres. clear Eres.
  destruct Hs as [n|a Hn|a b Hb Hp|a b p Hb Hp Hlen|a b p Hb Hp Hlen Hf|a b p Hb Hp Hlen Hf].
  - injection Hrun as <- <-. exists [], (CountRow n :: records), (updates st), [].
    simpl. rewrite !app_nil_r. by split_and!.
  - apply IH in Hrun as (pre & post & buf & l & -> & Hout & Hlog & Hcat & Hbuf & Hr);
      [|done].
    exists (AdRow a :: pre), post, buf, l. cbn [progress flat_map].
    rewrite (scored_skip _ _ _ Hn). simpl in *. by split_and!.
  - injection Hrun as <- <-. exists [], (AdRow a :: records), (updates st), [].
    simpl. rewrite !app_nil_r. by split_and!.
  - apply IH in Hrun as (pre & post & buf & l & -> & Hout & Hlog & Hcat & Hbuf & Hr);
      [|done].
    exists (AdRow a :: pre), post, buf, l. cbn [progress flat_map].
    rewrite (scored_some _ _ _ _ _ Hb Hp). simpl in *.
    split_and!; auto.
    + by rewrite Hout, <- app_assoc.
    + etrans; [|exact Hcat]. by rewrite <- app_assoc.
  - apply IH in Hrun as (pre & post & buf & l & -> & Hout & Hlog & Hcat & Hbuf & Hr);
      [|simpl; unfold batch_size; lia].
    exists (AdRow a :: pre), post, buf,
      ((updates st ++ [mkUpdate (ad_id a) p], true) :: l).
    cbn [progress flat_map]. rewrite (scored_some _ _ _ _ _ Hb Hp). simpl in *.
    split_and!; auto.
    + by rewrite Hout, <- app_assoc.
    + by rewrite Hlog, <- app_assoc.
    + by rewrite Hcat, <- !app_assoc.
  - injection Hrun as <- <-.
    exists [AdRow a], records, [], [(updates st ++ [mkUpdate (ad_id a) p], false)].
    cbn [progress flat_map]. rewrite (scored_some _ _ _ _ _ Hb Hp). simpl.
    rewrite !app_nil_r. split_and!; auto. unfold batch_size. lia.
Qed.

Lemma run_loop_prefix e cs len records w w' r :
  run_loop e cs len records w = (w', r) ->
  exists pre post buf l,
    records = pre ++ post
    /\ stdout w' = stdout w ++ progress e cs len 0 pre
    /\ bulk_log w' = bulk_log w ++ l
    /\ flat_map (scored e cs) pre = concat (fst <$> l) ++ buf
    /\ length buf < batch_size
    /\ match r with
       | inr _ => post = [] /\ buf = []
       | inl ex => ex = WriteError -> buf = []
       end.
Proof.
  rewrite run_loop_eq.
  destruct (score_loop e cs len records (mkLoop 0 []) w) as [w1 r1] eqn:Hloop.
  apply score_loop_prefix in Hloop
    as (pre & post & buf & l & -> & Hout & Hlog & Hcat & Hbuf & Hr);
    [|simpl; unfold batch_size; lia].
  simpl in Hout, Hcat. destruct r1 as [ex|st].
  - intros [= <- <-]. exists pre, post, buf, l. by split_and!.
  - destruct Hr as [-> ->]. rewrite flush_rest_eq.
    destruct (updates st) as [|u us] eqn:Hus.
    + intros [= <- <-]. exists pre, [], [], l.
      split_and!; auto; try (unfold batch_size; simpl; lia).
    + assert (Hend : forall ok,
                 flat_map (scored e cs) pre
                 = concat (fst <$> (l ++ [(u :: us, ok)])) ++ [])
        by (intros ok; by rewrite fmap_app, concat_app, Hcat; simpl;
            rewrite !app_nil_r).
      destruct (bulk_fails e _); intros [= <- <-].
      * exists pre, [], [], (l ++ [(u :: us, false)]). simpl.
        split_and!; auto; try (unfold batch_size; simpl; lia).
        by rewrite Hlog, <- app_assoc.
      * exists pre, [], [], (l ++ [(u :: us, true)]). simpl.
        split_and!; auto; try (unfold batch_size; simpl; lia).
        by rewrite Hlog, <- app_assoc.
Qed.

Lemma classify_trace e newest lang w w' r records :
  SQL.query (build_query newest lang) (table w) = Some records ->
  classify e newest lang w = (w', r) ->
  match load_classifiers e (confs e) ∅ with
  | inl ex =>
      r = inl ex /\ issued w w' = []
      /\ printed w w' = [if newest then RunningNewest else RunningEvery]
  | inr cs =>
      exists pre post buf,
        records = pre ++ post
        /\ printed w w'
           = [if newest then RunningNewest else RunningEvery; Found (length records)]
             ++ progress e cs (length records) 0 pre
        /\ flat_map (scored e cs) pre = concat (fst <$> issued w w') ++ buf
        /\ length buf < batch_size
        /\ match r with
           | inr _ => post = [] /\ buf = []
           | inl ex => ex = WriteError -> buf = []
           end
  end.
Proof.
  intros Hq. destruct (query_rows _ _ _ _ Hq) as (wc & Hsel & Hrec).
  rewrite classify_eq, Hsel. cbv zeta. rewrite <- Hrec.
  replace (length (List.filter (SQL.eval_where wc) (table w))) with (length records)
    by (by rewrite Hrec, length_fmap).
  destruct (load_classifiers e (confs e) ∅) as [ex|cs].
  { intros [= <- <-]. split_and!; [done| |].
    - apply issued_app. simpl. by rewrite app_nil_r.
    - by apply printed_app. }
  intros Hrun.
  destruct (run_loop_prefix _ _ _ _ _ _ _ Hrun)
    as (pre & post & buf & l & Hrecs & Hout & Hlog & Hcat & Hbuf & Hr).
  exists pre, post, buf. split_and!; auto.
  - apply printed_app. rewrite Hout. simpl. by rewrite <- !app_assoc.
  - by rewrite (issued_app w w' l Hlog).
Qed.

(** X3: every progress line "(idx of total)" a run prints, however the run
    ends, carries as total the number of records of the stream and as idx
    the position of a record in it: between 1 and the total. *)
Theorem progress_counts_within_total e newest lang w w' r records i j n p :
  SQL.query (build_query newest lang) (table w) = Some records ->
  classify e newest lang w = (w', r) ->
  In (Classified i j n p) (printed w w') ->
  n = length records /\ 1 <= j <= n.
Proof.
  intros Hq Hrun Hin. pose proof (classify_trace _ _ _ _ _ _ _ Hq Hrun) as Ht.
  destruct (load_classifiers e (confs e) ∅) as [ex|cs].
  { destruct Ht as (_ & _ & Hp). rewrite Hp in Hin.
    destruct newest; by destruct Hin as [|[]]. }
  destruct Ht as (pre & post & buf & -> & Hp & _). rewrite Hp in Hin.
  apply in_app_or in Hin as [Hin|Hin].
  { destruct newest; by destruct Hin as [|[|[]]]. }
  apply progress_bounds in Hin as [-> Hj]. split; [done|].
  rewrite length_app. lia.
Qed.

Lemma progress_counts_within_total_demo :
  SQL.query (build_query true None) (table demo_world)
  = Some (AdRow <$> List.filter unscored demo_table)
  /\ classify demo_env true None demo_world = (demo_after, inr tt)
  /\ 2 = length (AdRow <$> List.filter unscored demo_table) /\ 1 <= 1 <= 2.
Proof.
  assert (H1 : SQL.query (build_query true None) (table demo_world)
               = Some (AdRow <$> List.filter unscored demo_table))
    by (vm_compute; reflexivity).
  assert (H2 : classify demo_env true None demo_world = (demo_after, inr tt))
    by (vm_compute; reflexivity).
  split; [exact H1|]. split; [exact H2|].
  apply (progress_counts_within_total demo_env true None demo_world demo_after
           (inr tt) _ "a1" 1 2 (3 # 4)%Q H1 H2).
  vm_compute. right. right. left. reflexivity.
Defined.

(** X7: the console of a run that ends well: the line of the mode, the line
    "found total", then one progress line for each scoreable record of the
    stream, in the order of the stream, with the position of the record in
    the stream as idx; records that are skipped take up a position and print
    nothing. *)
Theorem console_of_a_run e newest lang w w' records cs :
  SQL.query (build_query newest lang) (table w) = Some records ->
  load_classifiers e (confs e) ∅ = inr cs ->
  classify e newest lang w = (w', inr tt) ->
  printed w w'
  = [if newest then RunningNewest else RunningEvery; Found (length records)]
    ++ progress e cs (length records) 0 records.
Proof.
  intros Hq Hload Hrun. pose proof (classify_trace _ _ _ _ _ _ _ Hq Hrun) as Ht.
  rewrite Hload in Ht. destruct Ht as (pre & post & buf & -> & Hp & _ & _ & -> & _).
  by rewrite app_nil_r in *.
Qed.

Lemma console_of_a_run_demo :
  SQL.query (build_query false None) (table demo_world) = Some (AdRow <$> demo_table)
  /\ load_classifiers demo_env (confs demo_env) ∅ = inr demo_registry
  /\ exists w', classify demo_env false None demo_world = (w', inr tt)
                /\ printed demo_world w'
                   = [RunningEvery; Found 4; Classified "a1" 1 4 (3 # 4);
                      Classified "a2" 2 4 (3 # 4); Classified "a4" 4 4 (3 # 4)].
Proof.
  assert (H1 : SQL.query (build_query false None) (table demo_world)
               = Some (AdRow <$> demo_table)) by (vm_compute; reflexivity).
  assert (H2 : load_classifiers demo_env (confs demo_env) ∅ = inr demo_registry)
    by reflexivity.
  split; [exact H1|]. split; [exact H2|].
  exists (fst (classify demo_env false None demo_world)).
  assert (H3 : classify demo_env false None demo_world
               = (fst (classify demo_env false None demo_world), inr tt))
    by (vm_compute; reflexivity).
  split; [exact H3|].
  rewrite (console_of_a_run demo_env false None demo_world _ _ demo_registry H1 H2 H3).
  vm_compute. reflexivity.
Defined.

(** X4: in a run that ends well nothing stays in the buffer and nothing is
    written twice: the bulk writes are all committed, and their updates, one
    after the other, are the updates of the scoreable records of the stream
    in the order of the stream, which are also the updates the console
    announced. *)
Theorem every_scored_record_is_written_once e newest lang w w' records cs :
  SQL.query (build_query newest lang) (table w) = Some records ->
  load_classifiers e (confs e) ∅ = inr cs ->
  classify e newest lang w = (w', inr tt) ->
  concat (fst <$> issued w w') = flat_map (scored e cs) records
  /\ announced (printed w w') = flat_map (scored e cs) records
  /\ length (flat_map (scored e cs) records)
     = length (List.filter (scoreable cs) records)
  /\ Forall (fun c => c.2 = true) (issued w w').
Proof.
  intros Hq Hload Hrun. pose proof (classify_trace _ _ _ _ _ _ _ Hq Hrun) as Ht.
  rewrite Hload in Ht.
  destruct Ht as (pre & post & buf & -> & Hp & Hcat & _ & -> & ->).
  rewrite !app_nil_r in *. rewrite Hp, announced_app, announced_progress.
  split; [done|]. split; [by destruct newest|].
  destruct (query_rows _ _ _ _ Hq) as (wc & Hsel & Hrec).
  rewrite classify_eq, Hsel, Hload in Hrun. cbv zeta in Hrun. rewrite <- Hrec in Hrun.
  destruct (run_loop_spec _ _ _ _ _ _ _ Hrun)
    as (bs & fl & rest & Hlog & _ & _ & _ & -> & _ & Hcount).
  split; [done|]. rewrite (issued_app w w' _ Hlog), app_nil_r.
  apply Forall_fmap. by apply Forall_true.
Qed.

Lemma every_scored_record_is_written_once_demo :
  SQL.query (build_query true None) (table demo_world)
  = Some (AdRow <$> List.filter unscored demo_table)
  /\ load_classifiers demo_env (confs demo_env) ∅ = inr demo_registry
  /\ classify demo_env true None demo_world = (demo_after, inr tt)
  /\ concat (fst <$> issued demo_world demo_after)
     = flat_map (scored demo_env demo_registry) (AdRow <$> List.filter unscored demo_table).
Proof.
  assert (H1 : SQL.query (build_query true None) (table demo_world)
               = Some (AdRow <$> List.filter unscored demo_table))
    by (vm_compute; reflexivity).
  assert (H2 : load_classifiers demo_env (confs demo_env) ∅ = inr demo_registry)
    by reflexivity.
  assert (H3 : classify demo_env true None demo_world = (demo_after, inr tt))
    by (vm_compute; reflexivity).
  split; [exact H1|]. split; [exact H2|]. split; [exact H3|].
  exact (proj1 (every_scored_record_is_written_once demo_env true None demo_world
                  demo_after _ demo_registry H1 H2 H3)).
Defined.

(** ** What a run does to the table *)

Lemma classify_table e newest lang w :
  exists us, table (classify e newest lang w).1 = upd us <$> table w.
Proof.
  rewrite classify_eq. cbv zeta.
  destruct (selection newest lang) as [wc|];
    [|exists []; simpl; by rewrite list_fmap_id].
  destruct (load_classifiers e (confs e) ∅) as [ex|cs];
    [exists []; simpl; by rewrite list_fmap_id|].
  destruct (run_loop e cs _ _ _) as [w' r] eqn:Hrun.
  destruct (run_loop_spec _ _ _ _ _ _ _ Hrun) as (bs & _ & _ & _ & Htab & _).
  exists (concat bs). simpl. by rewrite Htab, apply_updates_upd.
Qed.

(** X6: whatever its arguments and however it ends, a run neither adds nor
    removes an ad and changes no column but [political_probability]: the
    table keeps its ids, its languages and its markups, row by row. *)
Theorem run_changes_probabilities_only e newest lang w :
  ad_id <$> table (classify e newest lang w).1 = ad_id <$> table w
  /\ ad_lang <$> table (classify e newest lang w).1 = ad_lang <$> table w
  /\ ad_html <$> table (classify e newest lang w).1 = ad_html <$> table w
  /\ length (table (classify e newest lang w).1) = length (table w).
Proof.
  destruct (classify_table e newest lang w) as [us ->].
  rewrite <- !list_fmap_compose, length_fmap.
  split_and!; [| | |done]; apply list_fmap_ext; intros _ a _; simpl;
    by destruct (upd_fields us a) as (? & ? & ?).
Qed.

(** ** Runs that end with an exception *)

Lemma run_loop_failed e cs len records w w' ex :
  run_loop e cs len records w = (w', inl ex) ->
  exists bs fl,
    bulk_log w' = bulk_log w ++ ((fun b => (b, true)) <$> bs) ++ ((fun b => (b, false)) <$> fl)
    /\ Forall (fun b => length b = batch_size) bs
    /\ Forall (fun b => 1 <= length b <= batch_size) fl
    /\ (ex = WriteError -> length fl = 1) /\ (ex <> WriteError -> fl = []).
Proof.
  rewrite run_loop_eq.
  destruct (score_loop e cs len records (mkLoop 0 []) w) as [w1 r1] eqn:Hloop.
  apply score_loop_spec in Hloop as (bs & fl & rest & Hlog & _ & Hall & _ & Hr);
    [|simpl; unfold batch_size; lia].
  apply Forall_app in Hall as [Hbs Hfl]. destruct r1 as [ex1|st].
  - intros [= <- <-]. exists bs, fl. destruct Hr as [Hw Hn]. split_and!; auto.
    + eapply Forall_impl; [exact Hfl|]. simpl. unfold batch_size. lia.
    + intros Hex. by destruct (Hw Hex) as (b & -> & _).
  - destruct Hr as (-> & _ & Hlt & _). rewrite flush_rest_eq.
    destruct (updates st) as [|u us] eqn:Hus; [done|].
    destruct (bulk_fails e _); [|done]. intros [= <- <-].
    exists bs, [u :: us]. simpl in *. rewrite app_nil_r in Hlog.
    split_and!; auto.
    + by rewrite Hlog, <- app_assoc.
    + constructor; [|done]. simpl. lia.
    + done.
Qed.

Lemma committed_of_log (bs fl : list (list Update)) :
  List.filter snd (((fun b => (b, true)) <$> bs) ++ ((fun b => (b, false)) <$> fl))
  = (fun b => (b, true)) <$> bs.
Proof.
  induction bs as [|b bs IH]; simpl.
  - induction fl as [|b fl IH]; [done|]. simpl. apply IH.
  - f_equal. apply IH.
Qed.

Lemma updates_of_log (bs fl : list (list Update)) :
  concat (fst <$> (((fun b => (b, true)) <$> bs) ++ ((fun b => (b, false)) <$> fl)))
  = concat bs ++ concat fl.
Proof.
  rewrite fmap_app, concat_app, <- !list_fmap_compose.
  f_equal; f_equal; apply list_fmap_id.
Qed.

(** X8: a run that ends with an exception has committed whole batches only:
    each committed write carries exactly 100 updates, and what was scored
    since the last of them is announced on the console but not stored.  The
    announced updates are those of the writes issued, followed by fewer than
    100 that were still in the buffer; so at most 100 announced updates are
    missing from the table. *)
Theorem failed_run_commits_whole_batches e newest lang w w' ex :
  classify e newest lang w = (w', inl ex) ->
  Forall (fun c => c.2 = true -> length c.1 = 100) (issued w w')
  /\ (exists buf, announced (printed w w') = concat (fst <$> issued w w') ++ buf
                  /\ length buf < 100)
  /\ length (announced (printed w w'))
     <= 100 * length (List.filter snd (issued w w')) + 100.
Proof.
  rewrite classify_eq. cbv zeta.
  assert (Hnone : forall l : Line,
             (l = RunningNewest \/ l = RunningEvery) ->
             issued w (say l w) = [] /\ printed w (say l w) = [l]).
  { intros l _. split; [apply issued_app; simpl; by rewrite app_nil_r|].
    by apply printed_app. }
  destruct (selection newest lang) as [wc|].
  2:{ intros [= <- _].
      destruct (Hnone (if newest then RunningNewest else RunningEvery)) as [-> ->];
        [destruct newest; auto|].
      split_and!; [apply Forall_nil_2| |destruct newest; simpl; lia];
        exists []; destruct newest; (split; [done|simpl; lia]). }
  destruct (load_classifiers e (confs e) ∅) as [ex'|cs].
  { intros [= <- _].
    destruct (Hnone (if newest then RunningNewest else RunningEvery)) as [-> ->];
      [destruct newest; auto|].
    split_and!; [apply Forall_nil_2| |destruct newest; simpl; lia];
        exists []; destruct newest; (split; [done|simpl; lia]). }
  intros Hrun.
  destruct (run_loop_failed _ _ _ _ _ _ _ Hrun) as (bs & fl & Hlog & Hbs & Hfl & Hw & Hn).
  destruct (run_loop_prefix _ _ _ _ _ _ _ Hrun)
    as (pre & post & buf & l & _ & Hout & Hlog' & Hcat & Hbuf & Hr).
  assert (Hl : l = ((fun b => (b, true)) <$> bs) ++ ((fun b => (b, false)) <$> fl)).
  { rewrite Hlog in Hlog'. by apply app_inv_head in Hlog'. }
  assert (Hiss : issued w w' = l) by (by apply issued_app).
  assert (Hprinted : announced (printed w w') = concat (fst <$> l) ++ buf).
  { rewrite (printed_app w w' ([if newest then RunningNewest else RunningEvery;
                                 Found (length (List.filter (SQL.eval_where wc) (table w)))]
                               ++ progress e cs _ 0 pre))
      by (rewrite Hout; simpl; by rewrite <- !app_assoc).
    rewrite announced_app, announced_progress, <- Hcat. by destruct newest. }
  rewrite Hiss. split_and!.
  - rewrite Hl. apply Forall_app. split; apply Forall_fmap.
    + eapply Forall_impl; [exact Hbs|]. by intros b Hb _.
    + by apply Forall_true.
  - by exists buf.
  - rewrite Hprinted, length_app. subst l.
    rewrite committed_of_log, updates_of_log, length_fmap, length_app.
    destruct (full_batches bs Hbs) as [-> _].
    assert (Hdec : ex = WriteError \/ ex <> WriteError)
      by (destruct ex; auto; by right).
    destruct Hdec as [->|Hne].
    + rewrite (Hr eq_refl). specialize (Hw eq_refl).
      destruct fl as [|b [|]]; try done. apply Forall_inv in Hfl.
      simpl. rewrite app_nil_r. unfold batch_size in *. lia.
    + rewrite (Hn Hne). simpl. unfold batch_size in *. lia.
Qed.

Lemma failed_run_commits_whole_batches_demo :
  classify demo_refusing_env true None demo_world = (demo_refused, inl WriteError)
  /\ length (announced (printed demo_world demo_refused))
     <= 100 * length (List.filter snd (issued demo_world demo_refused)) + 100.
Proof.
  assert (H : classify demo_refusing_env true None demo_world
              = (demo_refused, inl WriteError)) by (vm_compute; reflexivity).
  split; [exact H|].
  exact (proj2 (proj2 (failed_run_commits_whole_batches demo_refusing_env true None
                         demo_world demo_refused WriteError H))).
Defined.

(** ** The table after a run, ad by ad *)

Lemma upd_last us a u :
  In u us -> upd_id u = ad_id a ->
  exists u', In u' us /\ upd_id u' = ad_id a
             /\ political_probability (upd us a) = probability u'.
Proof.
  revert u. induction us as [|v us IH] using rev_ind; intros u Hin Hid; [done|].
  rewrite upd_snoc. unfold SQL.set_probability.
  destruct (upd_fields us a) as (-> & _ & _).
  destruct (String.eqb_spec (ad_id a) (upd_id v)) as [Heq|Hne].
  - exists v. split_and!; [|done|done]. apply in_or_app. right. by left.
  - apply in_app_or in Hin as [Hin|[<-|[]]]; [|congruence].
    destruct (IH u Hin Hid) as (u' & Hu' & Hi & Hp).
    exists u'. split_and!; [|done|done]. apply in_or_app. by left.
Qed.

Lemma ad_eta a p :
  political_probability a = p -> a = mkAd (ad_id a) (ad_lang a) (ad_html a) p.
Proof. destruct a. simpl. by intros ->. Qed.

(** Updates that come from selected ads of a table with unique ids give an
    ad they reach the score of that very ad. *)
Lemma upd_reached e cs (sel : Ad -> bool) t us a :
  NoDup (ad_id <$> t) ->
  (forall u, In u us ->
             exists a', In a' t /\ sel a' = true /\ In u (scored e cs (AdRow a'))) ->
  In a t ->
  (exists u, In u us /\ upd_id u = ad_id a) ->
  sel a = true
  /\ exists b p, cs !! ad_lang a = Some b /\ score_value e b a = Some p
                 /\ In (mkUpdate (ad_id a) p) us
                 /\ upd us a = mkAd (ad_id a) (ad_lang a) (ad_html a) p.
Proof.
  intros Hnodup Hfrom Ha (u & Hu & Hid).
  destruct (upd_last _ _ _ Hu Hid) as (u' & Hu' & Hid' & Hp).
  destruct (Hfrom u' Hu') as (a' & Ha' & Hsel & Hsc). simpl in Hsc.
  destruct (cs !! ad_lang a') as [b|] eqn:Hb; [|done].
  destruct (score_value e b a') as [p|] eqn:Hscore; [|done].
  destruct Hsc as [<-|[]]. simpl in *.
  assert (a' = a) as -> by (by eapply same_id_same_ad).
  split; [done|]. exists b, p. split_and!; auto.
  destruct (upd_fields us a) as (Hi & Hl & Hh).
  rewrite (ad_eta (upd us a) p Hp). by rewrite Hi, Hl, Hh.
Qed.

Lemma classify_ok_table e cs newest lang w w' :
  plain_filter lang = true ->
  NoDup (ad_id <$> table w) ->
  load_classifiers e (confs e) ∅ = inr cs ->
  classify e newest lang w = (w', inr tt) ->
  table w' = rescored e cs newest lang <$> table w.
Proof.
  intros Hl Hnodup Hload.
  destruct (selection_wanted newest lang Hl) as (wc & Hsel & Hw).
  rewrite classify_eq, Hsel, Hload. cbv zeta. intros Hrun.
  destruct (run_loop_spec _ _ _ _ _ _ _ Hrun)
    as (bs & fl & rest & _ & Htab & _ & Hcat & -> & -> & _).
  rewrite !app_nil_r in Hcat. cbn [say table] in Htab.
  rewrite Htab, apply_updates_upd. apply list_fmap_ext. intros i a Ha.
  apply list_elem_of_lookup_2, list_elem_of_In in Ha.
  assert (Hfrom : forall u, In u (concat bs) ->
             exists a', In a' (table w) /\ wanted newest lang a' = true
                        /\ In u (scored e cs (AdRow a'))).
  { intros u Hu. rewrite Hcat in Hu. apply in_flat_map in Hu as (row & Hrow & Hu).
    apply in_map_iff in Hrow as (a' & <- & Ha'). apply filter_In in Ha' as [Ha' Hs].
    exists a'. rewrite <- Hw. by split_and!. }
  unfold rescored.
  destruct (update_for (concat bs) (ad_id a)) as [Hhit|Hno].
  - destruct (upd_reached _ _ _ _ _ _ Hnodup Hfrom Ha Hhit)
      as (-> & b & p & -> & -> & _ & ->). done.
  - rewrite (upd_other _ _ Hno).
    destruct (wanted newest lang a) eqn:Hwa; [|done].
    destruct (cs !! ad_lang a) as [b|] eqn:Hb; [|done].
    destruct (score_value e b a) as [p|] eqn:Hp; [|done].
    destruct (Hno (mkUpdate (ad_id a) p)); [|done].
    rewrite Hcat. apply in_flat_map. exists (AdRow a). split.
    + apply in_map, filter_In. split; [done|]. by rewrite Hw.
    + rewrite (scored_some _ _ _ _ _ Hb Hp). by left.
Qed.

(** What the committed writes of a run, however it ends, make of an ad:
    they leave it, or give it the very probability a run that ends well
    gives it. *)
Lemma classify_any_table e cs newest lang w w' r :
  plain_filter lang = true ->
  NoDup (ad_id <$> table w) ->
  load_classifiers e (confs e) ∅ = inr cs ->
  classify e newest lang w = (w', r) ->
  exists us,
    table w' = upd us <$> table w
    /\ forall a, In a (table w) ->
                 upd us a = a \/ upd us a = rescored e cs newest lang a.
Proof.
  intros Hl Hnodup Hload.
  destruct (selection_wanted newest lang Hl) as (wc & Hsel & Hw).
  rewrite classify_eq, Hsel, Hload. cbv zeta. intros Hrun.
  destruct (run_loop_spec _ _ _ _ _ _ _ Hrun)
    as (bs & fl & rest & _ & Htab & _ & Hcat & _).
  cbn [say table] in Htab. exists (concat bs).
  split; [by rewrite Htab, apply_updates_upd|]. intros a Ha.
  assert (Hfrom : forall u, In u (concat bs) ->
             exists a', In a' (table w) /\ wanted newest lang a' = true
                        /\ In u (scored e cs (AdRow a'))).
  { intros u Hu.
    assert (Hu' : In u (flat_map (scored e cs)
                          (AdRow <$> List.filter (SQL.eval_where wc) (table w))))
      by (rewrite <- Hcat, concat_app, <- app_assoc; apply in_or_app; by left).
    apply in_flat_map in Hu' as (row & Hrow & Hu').
    apply in_map_iff in Hrow as (a' & <- & Ha'). apply filter_In in Ha' as [Ha' Hs].
    exists a'. rewrite <- Hw. by split_and!. }
  destruct (update_for (concat bs) (ad_id a)) as [Hhit|Hno].
  - right. unfold rescored.
    by destruct (upd_reached _ _ _ _ _ _ Hnodup Hfrom Ha Hhit)
      as (-> & b & p & -> & -> & _ & ->).
  - left. by apply upd_other.
Qed.

Lemma rescored_fields e cs newest lang a :
  ad_id (rescored e cs newest lang a) = ad_id a
  /\ ad_lang (rescored e cs newest lang a) = ad_lang a
  /\ ad_html (rescored e cs newest lang a) = ad_html a.
Proof.
  unfold rescored. destruct (wanted newest lang a); [|done].
  destruct (cs !! ad_lang a) as [b|]; [|done].
  by destruct (score_value e b a).
Qed.

(** Scoring an ad again changes nothing: the score does not depend on the
    stored probability. *)
Lemma rescored_twice e cs newest lang a :
  rescored e cs newest lang (rescored e cs newest lang a)
  = rescored e cs newest lang a.
Proof.
  destruct (wanted newest lang a) eqn:Hw.
  2:{ assert (Hr : rescored e cs newest lang a = a)
        by (unfold rescored; by rewrite Hw).
      by rewrite !Hr. }
  destruct (cs !! ad_lang a) as [b|] eqn:Hb.
  2:{ assert (Hr : rescored e cs newest lang a = a)
        by (unfold rescored; by rewrite Hw, Hb).
      by rewrite !Hr. }
  destruct (score_value e b a) as [p|] eqn:Hp.
  2:{ assert (Hr : rescored e cs newest lang a = a)
        by (unfold rescored; by rewrite Hw, Hb, Hp).
      by rewrite !Hr. }
  assert (Hr : rescored e cs newest lang a = mkAd (ad_id a) (ad_lang a) (ad_html a) p)
    by (unfold rescored; by rewrite Hw, Hb, Hp).
  rewrite Hr. unfold rescored. cbn [ad_lang ad_id ad_html]. rewrite Hb.
  change (score_value e b (mkAd (ad_id a) (ad_lang a) (ad_html a) p))
    with (score_value e b a).
  rewrite Hp. by case_match.
Qed.

Lemma nodup_ids (t : list Ad) :
  bool_decide (NoDup (ad_id <$> t)) = true -> NoDup (ad_id <$> t).
Proof. apply bool_decide_eq_true. Qed.

(** X5: with a language filter free of quotes (or none) and unique ids, a
    run that ends well leaves the table with every wanted ad whose language
    has a bundle at the probability that bundle gives it, and every other ad
    as it was; in mode [every] the wanted ads are all those of the language,
    already scored or not. *)
Theorem table_after_a_run e cs newest lang w w' :
  plain_filter lang = true ->
  NoDup (ad_id <$> table w) ->
  load_classifiers e (confs e) ∅ = inr cs ->
  classify e newest lang w = (w', inr tt) ->
  table w' = rescored e cs newest lang <$> table w
  /\ NoDup (ad_id <$> table w').
Proof.
  intros Hl Hnodup Hload Hrun.
  pose proof (classify_ok_table _ _ _ _ _ _ Hl Hnodup Hload Hrun) as ->.
  split; [done|]. rewrite <- list_fmap_compose.
  erewrite list_fmap_ext; [exact Hnodup|].
  intros i a _. simpl. by destruct (rescored_fields e cs newest lang a).
Qed.

Lemma table_after_a_run_demo :
  NoDup (ad_id <$> table demo_world)
  /\ classify demo_env true None demo_world = (demo_after, inr tt)
  /\ table demo_after = rescored demo_env demo_registry true None <$> demo_table.
Proof.
  assert (H1 : NoDup (ad_id <$> table demo_world))
    by (apply nodup_ids; vm_compute; reflexivity).
  assert (H2 : classify demo_env true None demo_world = (demo_after, inr tt))
    by (vm_compute; reflexivity).
  split; [exact H1|]. split; [exact H2|].
  exact (proj1 (table_after_a_run demo_env demo_registry true None demo_world
                  demo_after eq_refl H1 eq_refl H2)).
Defined.

(** X12: with a language filter free of quotes (or none) and unique ids,
    what a run that ends well leaves in the table does not depend on an
    earlier run with the same arguments, whether that one ended well or with
    an exception: the table is the one a single run that ends well gives.
    So a run that failed midway is made good by running again, and after a
    run that ended well a second one changes no stored probability, in
    either mode, even when a classifier answered exactly 0. *)
Theorem rerun_gives_the_table_of_one_run e cs newest lang w0 w1 r1 w2 :
  plain_filter lang = true ->
  NoDup (ad_id <$> table w0) ->
  load_classifiers e (confs e) ∅ = inr cs ->
  classify e newest lang w0 = (w1, r1) ->
  classify e newest lang w1 = (w2, inr tt) ->
  table w2 = rescored e cs newest lang <$> table w0
  /\ (r1 = inr tt -> table w2 = table w1).
Proof.
  intros Hl Hnodup Hload Hrun1 Hrun2.
  destruct (classify_any_table _ _ _ _ _ _ _ Hl Hnodup Hload Hrun1) as (us & Htab & Hus).
  assert (Hnodup1 : NoDup (ad_id <$> table w1)).
  { rewrite Htab, <- list_fmap_compose.
    erewrite list_fmap_ext; [exact Hnodup|].
    intros i a _. simpl. by destruct (upd_fields us a). }
  pose proof (classify_ok_table _ _ _ _ _ _ Hl Hnodup1 Hload Hrun2) as Htab2.
  assert (Heq : table w2 = rescored e cs newest lang <$> table w0).
  { rewrite Htab2, Htab, <- list_fmap_compose. apply list_fmap_ext.
    intros i a Ha. apply list_elem_of_lookup_2, list_elem_of_In in Ha. simpl.
    destruct (Hus a Ha) as [->| ->]; [done|apply rescored_twice]. }
  split; [done|]. intros ->.
  by rewrite Heq, (classify_ok_table _ _ _ _ _ _ Hl Hnodup Hload Hrun1).
Qed.

Lemma rerun_gives_the_table_of_one_run_demo :
  classify demo_refusing_env true None demo_world = (demo_refused, inl WriteError)
  /\ classify demo_refusing_env true None demo_refused = (demo_recovered, inr tt)
  /\ table demo_recovered = rescored demo_refusing_env demo_registry true None <$> demo_table.
Proof.
  assert (H1 : classify demo_refusing_env true None demo_world
               = (demo_refused, inl WriteError)) by (vm_compute; reflexivity).
  assert (H2 : classify demo_refusing_env true None demo_refused
               = (demo_recovered, inr tt)) by (vm_compute; reflexivity).
  split; [exact H1|]. split; [exact H2|].
  refine (proj1 (rerun_gives_the_table_of_one_run demo_refusing_env demo_registry
                   true None demo_world demo_refused (inl WriteError) demo_recovered
                   eq_refl _ eq_refl H1 H2)).
  apply nodup_ids. vm_compute. reflexivity.
Defined.

(** X14: when no record of the stream has a language with a bundle, and in
    particular when the stream is empty, the run ends well having printed
    its two opening lines and nothing else: no progress line, no bulk write,
    the table untouched. *)
Theorem nothing_to_score e newest lang w records cs :
  SQL.query (build_query newest lang) (table w) = Some records ->
  load_classifiers e (confs e) ∅ = inr cs ->
  (forall a, In (AdRow a) records -> cs !! ad_lang a = None) ->
  classify e newest lang w
  = (say (Found (length records))
       (say (if newest then RunningNewest else RunningEvery) w), inr tt).
Proof.
  intros Hq Hload Hnone. destruct (query_rows _ _ _ _ Hq) as (wc & Hsel & Hrec).
  rewrite classify_eq, Hsel, Hload. cbv zeta. rewrite <- Hrec.
  replace (length (List.filter (SQL.eval_where wc) (table w))) with (length records)
    by (by rewrite Hrec, length_fmap).
  apply run_loop_skips. intros row Hrow.
  assert (Hrow' := Hrow). rewrite Hrec in Hrow'.
  apply in_map_iff in Hrow' as (a & <- & _). exists a. split; [done|].
  by apply Hnone.
Qed.

Lemma nothing_to_score_demo :
  SQL.query (build_query true (Some "xx")) (table demo_world)
  = Some [AdRow (demo_ad "a3" "xx" 0)]
  /\ classify demo_env true (Some "xx") demo_world
     = (say (Found 1) (say RunningNewest demo_world), inr tt).
Proof.
  assert (H1 : SQL.query (build_query true (Some "xx")) (table demo_world)
               = Some [AdRow (demo_ad "a3" "xx" 0)]) by (vm_compute; reflexivity).
  split; [exact H1|].
  apply (nothing_to_score demo_env true (Some "xx") demo_world
           [AdRow (demo_ad "a3" "xx" 0)] demo_registry H1 eq_refl).
  intros a [[= <-]|[]]. vm_compute. reflexivity.
Defined.

(** ** A probability matrix without the political column *)

Lemma score_loop_app e cs len pre post : forall st w,
  score_loop e cs len (pre ++ post) st w =
  match score_loop e cs len pre st w with
  | (w1, inr st1) => score_loop e cs len post st1 w1
  | (w1, inl ex) => (w1, inl ex)
  end.
Proof.
  induction pre as [|row pre IH]; intros st w; [done|].
  rewrite <- app_comm_cons, !score_loop_cons.
  destruct (loop_body e cs len st row w) as [w1 [ex|st1]]; [done|]. apply IH.
Qed.

Lemma loop_body_index e cs len st a b w :
  cs !! ad_lang a = Some b -> score_value e b a = None ->
  loop_body e cs len st (AdRow a) w = (w, inl IndexError).
Proof.
  intros Hb Hp. pose proof (loop_body_step e cs len st w (AdRow a)) as Hs.
  remember (loop_body e cs len st (AdRow a) w) as res eqn:Eres. clear Eres.
  remember (AdRow a) as row eqn:Erow.
  destruct Hs as [n|a' Hn|a' b' Hb' Hp'|a' b' p Hb' Hp' Hlen|a' b' p Hb' Hp' Hlen Hf
                  |a' b' p Hb' Hp' Hlen Hf];
    try done; injection Erow as ->; congruence.
Qed.

(** X13: when the matrix a model returns for a record has no entry at row
    0, column 1, the run ends there with an index error: the records before
    it were announced and no later one is; the writes issued so far are all
    committed batches of exactly 100 updates, and the updates still in the
    buffer are not written, the last flush being skipped. *)
Theorem missing_column_aborts e newest lang w cs pre a b post :
  SQL.query (build_query newest lang) (table w) = Some (pre ++ AdRow a :: post) ->
  load_classifiers e (confs e) ∅ = inr cs ->
  (forall k, bulk_fails e k = false) ->
  (forall a' b', In (AdRow a') pre -> cs !! ad_lang a' = Some b' ->
                 is_Some (score_value e b' a')) ->
  cs !! ad_lang a = Some b ->
  score_value e b a = None ->
  exists w',
    classify e newest lang w = (w', inl IndexError)
    /\ printed w w'
       = [if newest then RunningNewest else RunningEvery;
          Found (length (pre ++ AdRow a :: post))]
         ++ progress e cs (length (pre ++ AdRow a :: post)) 0 pre
    /\ Forall (fun c => c.2 = true /\ length c.1 = 100) (issued w w')
    /\ exists buf, flat_map (scored e cs) pre = concat (fst <$> issued w w') ++ buf
                   /\ length buf < 100.
Proof.
  intros Hq Hload Hok Hpre Hb Hp.
  destruct (query_rows _ _ _ _ Hq) as (wc & Hsel & Hrec).
  rewrite classify_eq, Hsel, Hload. cbv zeta. rewrite <- Hrec.
  replace (length (List.filter (SQL.eval_where wc) (table w)))
    with (length (pre ++ AdRow a :: post)) by (by rewrite Hrec, length_fmap).
  set (len := length (pre ++ AdRow a :: post)).
  set (w0 := say (Found len) (say _ w)).
  assert (Hrows : forall n, ~ In (CountRow n) pre).
  { intros n Hn. apply (no_count_row (List.filter (SQL.eval_where wc) (table w)) n).
    rewrite <- Hrec. apply in_or_app. by left. }
  destruct (score_loop_total e cs len pre Hok Hpre Hrows (mkLoop 0 []) w0)
    as (w1 & st1 & Hloop).
  exists w1. rewrite run_loop_eq, score_loop_app, Hloop, score_loop_cons.
  rewrite (loop_body_index _ _ _ _ _ _ _ Hb Hp). split; [done|].
  destruct (score_loop_prefix _ _ _ _ _ _ _ _ Hloop)
    as (pre' & post' & buf & l & Hsplit & Hout & Hlog & Hcat & Hbuf & -> & _);
    [simpl; unfold batch_size; lia|].
  rewrite app_nil_r in Hsplit. subst pre'.
  destruct (score_loop_spec _ _ _ _ _ _ _ _ Hloop)
    as (bs & fl & rest & Hlog' & _ & Hall & _ & -> & _);
    [simpl; unfold batch_size; lia|].
  rewrite !app_nil_r in *. simpl in Hlog'.
  assert (Hl : l = (fun b => (b, true)) <$> bs).
  { rewrite Hlog in Hlog'. by apply app_inv_head in Hlog'. }
  split_and!.
  - apply printed_app. rewrite Hout. simpl. by rewrite <- !app_assoc.
  - rewrite (issued_app w w1 l Hlog), Hl. apply Forall_fmap.
    eapply Forall_impl; [exact Hall|]. intros c Hc. by split.
  - exists buf. rewrite (issued_app w w1 l Hlog). by split.
Qed.

Lemma missing_column_aborts_demo :
  SQL.query (build_query false None) (table demo_world)
  = Some ([AdRow (demo_ad "a1" "en-US" 0)]
          ++ AdRow (demo_ad "a2" "de-DE" (1 # 2))
             :: [AdRow (demo_ad "a3" "xx" 0); AdRow (demo_ad "a4" "en-US" (1 # 3))])
  /\ load_classifiers demo_narrow_env (confs demo_narrow_env) ∅ = inr demo_narrow_registry
  /\ exists w', classify demo_narrow_env false None demo_world = (w', inl IndexError)
                /\ printed demo_world w'
                   = [RunningEvery; Found 4; Classified "a1" 1 4 (3 # 4)].
Proof.
  assert (H1 : SQL.query (build_query false None) (table demo_world)
               = Some ([AdRow (demo_ad "a1" "en-US" 0)]
                       ++ AdRow (demo_ad "a2" "de-DE" (1 # 2))
                          :: [AdRow (demo_ad "a3" "xx" 0);
                              AdRow (demo_ad "a4" "en-US" (1 # 3))]))
    by (vm_compute; reflexivity).
  assert (H2 : load_classifiers demo_narrow_env (confs demo_narrow_env) ∅
               = inr demo_narrow_registry) by reflexivity.
  split; [exact H1|]. split; [exact H2|].
  destruct (missing_column_aborts demo_narrow_env false None demo_world
              demo_narrow_registry [AdRow (demo_ad "a1" "en-US" 0)]
              (demo_ad "a2" "de-DE" (1 # 2))
              (mkBundle (fun _ => [[1%Q]]) (fun docs => (fun _ => [1%Q]) <$> docs))
              [AdRow (demo_ad "a3" "xx" 0); AdRow (demo_ad "a4" "en-US" (1 # 3))]
              H1 H2)
    as (w' & Hrun & Hout & _).
  - intros k. reflexivity.
  - apply scores_checked. vm_compute. reflexivity.
  - vm_compute. reflexivity.
  - vm_compute. reflexivity.
  - exists w'. split; [exact Hrun|]. rewrite Hout. vm_compute. reflexivity.
Defined.
